(** * supercell_common: smart-pointer helpers, ContextHub, TcpConnector, UnicodeUtil

    A shallow embedding of the parts of the library that the specification
    talks about.  Part I holds the model (one module per source file),
    Part II the theorems. *)

From Stdlib Require Import ZArith NArith Lia.
From Stdlib.Strings Require Import Byte.
From stdpp Require Import base option list gmap.

Local Open Scope N_scope.

(* ===================================================================== *)
(** * Part I: the model                                                   *)
(* ===================================================================== *)

(** ** core-api/SharedPtr.h (src/unnamed/part_001)

    Raw pointers are addresses ([0] is the null pointer).  A [shared_ptr]
    is the pair of the stored pointer [px] and the control block [pn] it
    shares with its copies; the control blocks live in a [Store]. *)
Module SharedPtr.

Definition ptr : Type := N.
Definition null : ptr := 0.

(** The control block: the pointer it will delete, the number of
    [shared_ptr]s and the number of [weak_ptr]s that refer to it. *)
Record sp_counted := SpCounted {
  managed : ptr;
  use_count : nat;
  weak_count : nat
}.

Record shared_ptr := SharedPtr_ { px : ptr; pn : option N }.
Record weak_ptr := WeakPtr_ { wpx : ptr; wpn : option N }.

Record Store := MkStore {
  blocks : gmap N sp_counted;
  next_block : N;
  deleted : list ptr
}.

Definition empty_store : Store := MkStore ∅ 0 [].

(** [shared_ptr<T>()] and [weak_ptr<T>()]. *)
Definition sp_null : shared_ptr := SharedPtr_ null None.
Definition wp_null : weak_ptr := WeakPtr_ null None.

(** [a.get()] *)
Definition get (a : shared_ptr) : ptr := px a.

(** [shared_ptr<T>(p)]: a new control block that owns [p], for a [T]
    without the base [enable_shared_from_this] (as [TcpConnector] is).
    With that base the constructor also stores a weak reference in the
    object, which is not modelled: the statements on [ContextHub], whose
    [T] is arbitrary, speak of the use count and the deletions only. *)
Definition sp_from_raw (p : ptr) (st : Store) : shared_ptr * Store :=
  let b := next_block st in
  (SharedPtr_ p (Some b),
   MkStore (<[b := SpCounted p 1 0]> (blocks st)) (b + 1) (deleted st)).

(** Copy construction: one more owner of the same block. *)
Definition sp_copy (a : shared_ptr) (st : Store) : Store :=
  match pn a with
  | None => st
  | Some b =>
      MkStore (alter (λ c, SpCounted (managed c) (S (use_count c)) (weak_count c)) b (blocks st))
              (next_block st) (deleted st)
  end.

(** [delete p]; deleting the null pointer does nothing. *)
Definition delete_obj (p : ptr) (log : list ptr) : list ptr :=
  if (p =? null) then log else log ++ [p].

(** Destruction of a [shared_ptr]: the last owner deletes the object, and
    the block goes away with its last reference of either kind. *)
Definition sp_release (a : shared_ptr) (st : Store) : Store :=
  match pn a with
  | None => st
  | Some b =>
      match blocks st !! b with
      | None => st
      | Some c =>
          match use_count c with
          | 0%nat => st
          | 1%nat =>
              MkStore (match weak_count c with
                       | 0%nat => delete b (blocks st)
                       | _ => <[b := SpCounted (managed c) 0 (weak_count c)]> (blocks st)
                       end)
                      (next_block st) (delete_obj (managed c) (deleted st))
          | S n =>
              MkStore (<[b := SpCounted (managed c) n (weak_count c)]> (blocks st))
                      (next_block st) (deleted st)
          end
      end
  end.

(** [weak_ptr<T>(a)]: a non-owning reference to [a]'s block. *)
Definition wp_from_shared (a : shared_ptr) (st : Store) : weak_ptr * Store :=
  match pn a with
  | None => (wp_null, st)
  | Some b =>
      (WeakPtr_ (px a) (Some b),
       MkStore (alter (λ c, SpCounted (managed c) (use_count c) (S (weak_count c))) b (blocks st))
               (next_block st) (deleted st))
  end.

(** Copy construction of a [weak_ptr]. *)
Definition wp_copy (w : weak_ptr) (st : Store) : Store :=
  match wpn w with
  | None => st
  | Some b =>
      MkStore (alter (λ c, SpCounted (managed c) (use_count c) (S (weak_count c))) b (blocks st))
              (next_block st) (deleted st)
  end.

(** Destruction of a [weak_ptr]. *)
Definition wp_release (w : weak_ptr) (st : Store) : Store :=
  match wpn w with
  | None => st
  | Some b =>
      match blocks st !! b with
      | None => st
      | Some c =>
          match weak_count c, use_count c with
          | 0%nat, _ => st
          | 1%nat, 0%nat => MkStore (delete b (blocks st)) (next_block st) (deleted st)
          | S n, _ =>
              MkStore (<[b := SpCounted (managed c) (use_count c) n]> (blocks st))
                      (next_block st) (deleted st)
          end
      end
  end.

(** [w.use_count()], [w.expired()] and [w.lock()]. *)
Definition wp_use_count (w : weak_ptr) (st : Store) : nat :=
  match wpn w with
  | None => 0%nat
  | Some b => from_option use_count 0%nat (blocks st !! b)
  end.

Definition wp_expired (w : weak_ptr) (st : Store) : bool :=
  Nat.eqb (wp_use_count w st) 0.

Definition wp_lock (w : weak_ptr) (st : Store) : shared_ptr * Store :=
  if wp_expired w st then (sp_null, st)
  else let a := SharedPtr_ (wpx w) (wpn w) in (a, sp_copy a st).

(** [a.use_count()] *)
Definition sp_use_count (a : shared_ptr) (st : Store) : nat :=
  match pn a with
  | None => 0%nat
  | Some b => from_option use_count 0%nat (blocks st !! b)
  end.

(** [operator ==] on a [shared_ptr<T>] and a raw [const T] pointer. *)
Definition operator_eq (a : shared_ptr) (b : ptr) : bool := (get a =? b).

(** [operator !=] on a [shared_ptr<T>] and a raw [const T] pointer. *)
Definition operator_ne (a : shared_ptr) (b : ptr) : bool := negb (get a =? b).

End SharedPtr.

(** ** core-api/ContextHub.h (src/include/core-api/ContextHub.h)

    A C++ type [T] is a key of type [TypeId].  The function-local static
    [index] of [refContext<T>] is one variable per type, shared by all
    hubs and set from the class-wide counter [msContextIndexer] (a
    [uint32], which wraps) the first time [refContext<T>] runs on any
    hub.  A hub is named by its address. *)
Module ContextHub.
Import SharedPtr.

Definition uint32_modulus : N := 2 ^ 32.

(** The one data member of a hub. *)
Record Hub := MkHub { mContextObjects : list shared_ptr }.

Section Hub.
Context {TypeId : Type} `{Countable TypeId}.

(** The state of a program that uses hubs: the two static variables, the
    hubs, and the smart-pointer store. *)
Record World := MkWorld {
  msContextIndexer : N;
  index : gmap TypeId N;
  hubs : gmap N Hub;
  heap : Store
}.

(** Program start: the counter is zero-initialised and no hub is in use. *)
Definition initial : World := MkWorld 0 ∅ ∅ empty_store.

(** The vector of the hub at [this]; [ContextHub()] leaves it empty, so a
    hub that was not used yet has the empty vector. *)
Definition objects_of (this : N) (w : World) : list shared_ptr :=
  from_option mContextObjects [] (hubs w !! this).

(** [static uint32 index = msContextIndexer++;] *)
Definition static_index (T : TypeId) (w : World) : N * World :=
  match index w !! T with
  | Some i => (i, w)
  | None =>
      let i := msContextIndexer w in
      (i, MkWorld ((i + 1) mod uint32_modulus) (<[T := i]> (index w)) (hubs w) (heap w))
  end.

(** [while(index >= mContextObjects.size()) mContextObjects.push_back(...)];
    [n] bounds the number of iterations. *)
Fixpoint grow (n : nat) (i : nat) (v : list shared_ptr) : list shared_ptr :=
  match n with
  | O => v
  | S n' => if decide (length v ≤ i)%nat then grow n' i (v ++ [sp_null]) else v
  end.

(** [refContext<T>()]: the position of [T]'s slot in the vector of [this],
    made to exist. *)
Definition refContext (this : N) (T : TypeId) (w : World) : nat * World :=
  let '(i, w1) := static_index T w in
  let i := N.to_nat i in
  let v := objects_of this w1 in
  let v' := if decide (length v ≤ i)%nat then grow (S i) i v else v in
  (i, MkWorld (msContextIndexer w1) (index w1) (<[this := MkHub v']> (hubs w1)) (heap w1)).

(** [mContextObjects[i]] *)
Definition at_ (v : list shared_ptr) (i : nat) : shared_ptr := default sp_null (v !! i).

(** [set<T>(ctx)]: [refContext<T>() = boost::shared_ptr<T>(ctx);] *)
Definition set (this : N) (T : TypeId) (ctx : ptr) (w : World) : World :=
  let '(i, w1) := refContext this T w in
  let '(tmp, h1) := sp_from_raw ctx (heap w1) in
  let old := at_ (objects_of this w1) i in
  let h2 := sp_copy tmp h1 in
  let h3 := sp_release old h2 in
  let h4 := sp_release tmp h3 in
  MkWorld (msContextIndexer w1) (index w1)
          (<[this := MkHub (<[i := tmp]> (objects_of this w1))]> (hubs w1)) h4.

(** [get<T>()]: [return static_pointer_cast<T>(refContext<T>()).get();] *)
Definition get (this : N) (T : TypeId) (w : World) : ptr * World :=
  let '(i, w1) := refContext this T w in
  let slot := at_ (objects_of this w1) i in
  let h1 := sp_copy slot (heap w1) in
  let r := SharedPtr.get slot in
  let h2 := sp_release slot h1 in
  (r, MkWorld (msContextIndexer w1) (index w1) (hubs w1) h2).

(** [reset<T>()]: [refContext<T>().reset();] *)
Definition reset (this : N) (T : TypeId) (w : World) : World :=
  let '(i, w1) := refContext this T w in
  let old := at_ (objects_of this w1) i in
  let h1 := sp_release old (heap w1) in
  MkWorld (msContextIndexer w1) (index w1)
          (<[this := MkHub (<[i := sp_null]> (objects_of this w1))]> (hubs w1)) h1.

(** Calls on hubs, and a program as a sequence of calls. *)
Inductive call :=
| CSet (this : N) (T : TypeId) (ctx : ptr)
| CGet (this : N) (T : TypeId)
| CReset (this : N) (T : TypeId).

Definition exec (c : call) (w : World) : World :=
  match c with
  | CSet this T ctx => set this T ctx w
  | CGet this T => snd (get this T w)
  | CReset this T => reset this T w
  end.

Definition run (cs : list call) (w : World) : World := foldl (λ w c, exec c w) w cs.

(** Is [c] a [set<T>] on the hub at [this]? *)
Definition sets (this : N) (T : TypeId) (c : call) : bool :=
  match c with
  | CSet a U _ => bool_decide (a = this) && bool_decide (U = T)
  | _ => false
  end.

(** The pointer the hub at [this] holds for [T], read without side effects. *)
Definition stored (this : N) (T : TypeId) (w : World) : ptr :=
  match index w !! T with
  | Some i => px (at_ (objects_of this w) (N.to_nat i))
  | None => null
  end.

(** What holds of the statics and the hubs as long as the counter has not
    wrapped: the indices handed out are below the counter and differ from
    type to type, and no vector has a slot at or above the counter. *)
Record consistent (w : World) : Prop := {
  indexer_range : msContextIndexer w < uint32_modulus;
  index_below : ∀ T i, index w !! T = Some i → i < msContextIndexer w;
  index_inj : ∀ T U i, index w !! T = Some i → index w !! U = Some i → T = U;
  objects_below : ∀ a, N.of_nat (length (objects_of a w)) ≤ msContextIndexer w
}.

(** Room for [n] more types before the counter wraps. *)
Definition room (n : N) (w : World) : Prop := msContextIndexer w + n < uint32_modulus.

(** The types a program names, and room for those of a set of types that
    have no index yet: the counter moves once per type, not once per call. *)
Definition call_type (c : call) : TypeId :=
  match c with
  | CSet _ T _ | CGet _ T | CReset _ T => T
  end.

Definition types_of (cs : list call) : gset TypeId := list_to_set (call_type <$> cs).

Definition types_room (X : gset TypeId) (w : World) : Prop :=
  msContextIndexer w + N.of_nat (size (X ∖ dom (index w))) < uint32_modulus.

End Hub.
Arguments World TypeId {_ _}.
Arguments call TypeId : clear implicits.

End ContextHub.

(** ** net-api/sys/tcp/TcpConnector.h (src/include/net-api/rdma/old/tcp/TcpConnector.h)

    The header gives the class: its [Status] enumeration, its members and
    the factory [create].  The bodies of the constructor and of [connect],
    [cancel], [handleChannelEvent], [handleTimeoutEvent], [handleConnected]
    and [cleanup] are in a source file that is not part of [src/]; they are
    modelled from the specification, each marked as such. *)
Module TcpConnector.
Import SharedPtr.

(** [enum Status] *)
Inductive Status := IDLE | CONNECTING | CONNECTED | CANCELING | CANCELED | ERROR.

#[global] Instance Status_eq_dec : EqDecision Status.
Proof. solve_decision. Defined.

(** Modelled from the spec: the status codes a callback or a call reports
    (section 6, Status codes); their declaration is not in [src/]. *)
Inductive StatusCode :=
  Ok | TimedOut | Refused | AlreadyInProgress | InvalidHandle | TransportError.

(** Modelled from the spec: the terminal states (section 4.2). *)
Definition terminal (s : Status) : bool :=
  match s with
  | CONNECTED | CANCELED | ERROR => true
  | IDLE | CONNECTING | CANCELING => false
  end.

Definition handle_t : Type := Z.

(** An [ev::io] or [ev::timer] watcher: started on the loop or not. *)
Record ev_watcher := EvWatcher { is_active : bool }.

(** A [ConnectorCallback] value is named by a number; calling it is an
    observable event. *)
Definition ConnectorCallback : Type := N.

(** An address is an opaque value. *)
Definition InetSocketAddress : Type := N.

(** The anonymous struct [mConnectInfo]. *)
Record ConnectInfo := MkConnectInfo {
  watcher : ev_watcher;
  timeout : ev_watcher;
  poller : shared_ptr;
  handle : option handle_t;
  connection : shared_ptr
}.

Record TcpConnector := MkTcpConnector {
  mStatus : Status;
  mEngine : ptr;
  mConnectInfo : ConnectInfo;
  mWeakThis : weak_ptr;
  mConnectorCallback : option ConnectorCallback
}.

(** [status()] *)
Definition status (c : TcpConnector) : Status := mStatus c.

(** What a run of the connector shows to the outside: each assignment to
    [mStatus], and each call of the user's callback with its arguments. *)
Inductive Event :=
| EvStatus (s : Status)
| EvCallback (cb : ConnectorCallback) (conn : shared_ptr) (code : StatusCode).

Definition is_callback (e : Event) : bool :=
  match e with EvCallback _ _ _ => true | EvStatus _ => false end.

(** Member functions run on [this] and emit events. *)
Definition M (A : Type) : Type := TcpConnector → A * TcpConnector * list Event.

#[global] Instance M_ret : MRet M := λ A x c, (x, c, []).
#[global] Instance M_bind : MBind M := λ A B f m c,
  let '(x, c1, t1) := m c in
  let '(y, c2, t2) := f x c1 in
  (y, c2, t1 ++ t2).

Definition this : M TcpConnector := λ c, (c, c, []).

Definition set_mStatus (s : Status) : M unit := λ c,
  (tt, MkTcpConnector s (mEngine c) (mConnectInfo c) (mWeakThis c) (mConnectorCallback c),
   [EvStatus s]).

Definition set_mConnectInfo (i : ConnectInfo) : M unit := λ c,
  (tt, MkTcpConnector (mStatus c) (mEngine c) i (mWeakThis c) (mConnectorCallback c), []).

Definition set_mWeakThis (w : weak_ptr) : M unit := λ c,
  (tt, MkTcpConnector (mStatus c) (mEngine c) (mConnectInfo c) w (mConnectorCallback c), []).

Definition set_mConnectorCallback (cb : option ConnectorCallback) : M unit := λ c,
  (tt, MkTcpConnector (mStatus c) (mEngine c) (mConnectInfo c) (mWeakThis c) cb, []).

(** [mConnectorCallback(conn, code)]; an empty function object is not called. *)
Definition call_mConnectorCallback (conn : shared_ptr) (code : StatusCode) : M unit := λ c,
  (tt, c, match mConnectorCallback c with
          | Some cb => [EvCallback cb conn code]
          | None => []
          end).

(** Modelled from the spec: the constructor's body, not in [src/]
    (section 4.2: the initial state is IDLE; nothing is armed or held). *)
Definition TcpConnector_ (engine : ptr) : TcpConnector :=
  MkTcpConnector IDLE engine
    (MkConnectInfo (EvWatcher false) (EvWatcher false) sp_null None sp_null)
    wp_null None.

(** Modelled from the spec: the body of [cleanup], not in [src/]
    (section 4.2: releases the watcher registrations and drops the
    self-reference). *)
Definition cleanup : M unit :=
  c ← this;
  let i := mConnectInfo c in
  set_mConnectInfo
    (MkConnectInfo (EvWatcher false) (EvWatcher false) (poller i) (handle i) (connection i));;
  set_mWeakThis wp_null.

(** Modelled from the spec: the body of [connect], not in [src/]
    (section 4.2: valid only from IDLE; arms a readiness watcher on the
    newly opened handle and a timeout watcher; goes to CONNECTING; fails at
    once otherwise).  [h] is the handle the system opened for this
    attempt.  The result is the [bool] of the declaration in the header:
    [true] for the accepted call, [false] for the failed one. *)
Definition connect (p : shared_ptr) (address : InetSocketAddress)
    (callback : ConnectorCallback) (h : handle_t) : M bool :=
  c ← this;
  if decide (mStatus c = IDLE) then
    set_mConnectorCallback (Some callback);;
    set_mConnectInfo
      (MkConnectInfo (EvWatcher true) (EvWatcher true) p (Some h)
                     (connection (mConnectInfo c)));;
    set_mStatus CONNECTING;;
    mret true
  else mret false.

(** Modelled from the spec: the body of [cancel], not in [src/]
    (section 4.2: from CONNECTING, goes to CANCELING, disarms both
    watchers, goes to CANCELED, with no callback; a no-op elsewhere). *)
Definition cancel : M unit :=
  c ← this;
  if decide (mStatus c = CONNECTING) then
    set_mStatus CANCELING;;
    cleanup;;
    set_mStatus CANCELED
  else mret tt.

(** Modelled from the spec: the body of [handleConnected], not in [src/]
    (section 4.2: success builds the connection, goes to CONNECTED, calls
    the callback with it and Ok, cleans up).  [conn] is the connection
    built on the handle. *)
Definition handleConnected (conn : shared_ptr) : M unit :=
  c ← this;
  let i := mConnectInfo c in
  set_mConnectInfo (MkConnectInfo (watcher i) (timeout i) (poller i) (handle i) conn);;
  set_mStatus CONNECTED;;
  call_mConnectorCallback conn Ok;;
  cleanup.

(** What probing the handle for the completion of the connect finds. *)
Inductive Probe :=
| Completed (conn : shared_ptr)
| Failed (code : StatusCode).

(** Modelled from the spec: the body of [handleChannelEvent], not in
    [src/] (section 4.2: a readiness event while CONNECTING probes the
    handle; failure goes to ERROR and calls the callback with null and the
    error; an event in any other state is dropped). *)
Definition handleChannelEvent (probe : Probe) : M unit :=
  c ← this;
  if decide (mStatus c = CONNECTING) then
    match probe with
    | Completed conn => handleConnected conn
    | Failed code =>
        set_mStatus ERROR;;
        call_mConnectorCallback sp_null code;;
        cleanup
    end
  else mret tt.

(** Modelled from the spec: the body of [handleTimeoutEvent], not in
    [src/] (section 4.2: a timeout while CONNECTING goes to ERROR, calls
    the callback with null and TimedOut, cleans up; dropped elsewhere). *)
Definition handleTimeoutEvent : M unit :=
  c ← this;
  if decide (mStatus c = CONNECTING) then
    set_mStatus ERROR;;
    call_mConnectorCallback sp_null TimedOut;;
    cleanup
  else mret tt.

(** The public operations, as a caller or the reactor issues them. *)
Inductive Op :=
| OConnect (p : shared_ptr) (address : InetSocketAddress)
           (callback : ConnectorCallback) (h : handle_t)
| OCancel
| OChannelEvent (probe : Probe)
| OTimeoutEvent.

Definition step (o : Op) : M unit :=
  match o with
  | OConnect p a cb h => connect p a cb h;; mret tt
  | OCancel => cancel
  | OChannelEvent probe => handleChannelEvent probe
  | OTimeoutEvent => handleTimeoutEvent
  end.

Fixpoint run (os : list Op) : M unit :=
  match os with
  | [] => mret tt
  | o :: os' => step o;; run os'
  end.

(** The connector after a computation, and the events it emitted. *)
Definition state_of {A} (r : A * TcpConnector * list Event) : TcpConnector := r.1.2.
Definition trace_of {A} (r : A * TcpConnector * list Event) : list Event := r.2.
Definition value_of {A} (r : A * TcpConnector * list Event) : A := r.1.1.

Definition callbacks (t : list Event) : list Event := List.filter is_callback t.


Definition armed (c : TcpConnector) : bool * bool :=
  (is_active (watcher (mConnectInfo c)), is_active (timeout (mConnectInfo c))).

(** *** The factory

    Connectors live in a heap: [new] hands out the next address, and the
    smart pointers to a connector share a control block in the store. *)
Record Heap := MkHeap {
  objects : gmap ptr TcpConnector;
  next_object : ptr;
  store : Store
}.

Definition empty_heap : Heap := MkHeap ∅ 1 empty_store.

(** [new TcpConnector(engine)] *)
Definition new_TcpConnector (engine : ptr) (h : Heap) : ptr * Heap :=
  let a := next_object h in
  (a, MkHeap (<[a := TcpConnector_ engine]> (objects h)) (a + 1) (store h)).

(** [p->mWeakThis = q]: the weak pointer takes a reference to [q]'s block
    and lets go of the block it had. *)
Definition assign_mWeakThis (a : ptr) (q : shared_ptr) (h : Heap) : Heap :=
  match objects h !! a with
  | None => h
  | Some c =>
      let '(w, st1) := wp_from_shared q (store h) in
      let st2 := wp_release (mWeakThis c) st1 in
      MkHeap (<[a := (set_mWeakThis w c).1.2]> (objects h)) (next_object h) st2
  end.

(** [TcpConnector::create(e)] *)
Definition create (e : ptr) (h : Heap) : shared_ptr * Heap :=
  let engine := e in
  let '(a, h1) := new_TcpConnector engine h in
  let '(p, st1) := sp_from_raw a (store h1) in
  let h2 := assign_mWeakThis (get p) p (MkHeap (objects h1) (next_object h1) st1) in
  (* return p: the result is a copy of the local, which is then destroyed *)
  let st3 := sp_release p (sp_copy p (store h2)) in
  (p, MkHeap (objects h2) (next_object h2) st3).

(** The end of a [shared_ptr<TcpConnector>]: when it was the last owner the
    connector is deleted, which ends its members ([mWeakThis] and the two
    shared pointers of [mConnectInfo]) and frees its address. *)
Definition sp_destroy (p : shared_ptr) (h : Heap) : Heap :=
  let last := bool_decide (sp_use_count p (store h) = 1%nat) in
  let st1 := sp_release p (store h) in
  match objects h !! get p with
  | Some c =>
      if last then
        let st2 := wp_release (mWeakThis c) st1 in
        let st3 := sp_release (connection (mConnectInfo c)) st2 in
        let st4 := sp_release (poller (mConnectInfo c)) st3 in
        MkHeap (delete (get p) (objects h)) (next_object h) st4
      else MkHeap (objects h) (next_object h) st1
  | None => MkHeap (objects h) (next_object h) st1
  end.

(** Addresses and control blocks in use are below the allocation marks,
    and no object is at the null address. *)
Record heap_ok (h : Heap) : Prop := {
  next_object_pos : next_object h ≠ null;
  objects_below_next : ∀ a c, objects h !! a = Some c → a < next_object h;
  blocks_below_next : ∀ b c, blocks (store h) !! b = Some c → b < next_block (store h)
}.

End TcpConnector.

(** ** utility/UnicodeUtil.cpp (src/unnamed/part_000)

    [utf8_to_ucs4] copies from a [boost::u8_to_u32_iterator] over the input
    to a [std::back_inserter] of the output.  The iterator belongs to
    Boost, not to this library: it is a parameter here, given by what
    [*it] and [++it] do at a position of the input.  A position is the
    part of the input that is still to be read; [last] is the empty one. *)
Module UnicodeUtil.

(** How a call ends: it returns, or an exception of the iterator leaves it. *)
Inductive outcome := Returned | Thrown.

Section Copy.
(** [*it]: the code point at the position, or [None] when it throws. *)
Variable dereference : list byte → option N.
(** [++it]: the next position, or [None] when it throws. *)
Variable increment : list byte → option (list byte).
(** The conversion of the iterator's [uint32] value to [wchar_t]. *)
Variable wchar_of : N → Z.

(** [std::copy(first, last, std::back_inserter(output))]:
    while [first != last], push back [*first] and advance [first].
    [n] bounds the number of iterations. *)
Fixpoint copy (n : nat) (first : list byte) (output : list Z)
  : option (outcome * list Z) :=
  match n with
  | O => None
  | S n' =>
      match first with
      | [] => Some (Returned, output)
      | _ :: _ =>
          match dereference first with
          | None => Some (Thrown, output)
          | Some v =>
              let output' := output ++ [wchar_of v] in
              match increment first with
              | None => Some (Thrown, output')
              | Some next => copy n' next output'
              end
          end
      end
  end.

(** [utf8_to_ucs4(input, output)]: the outcome and the output afterwards. *)
Definition utf8_to_ucs4 (input : list byte) (output : list Z)
  : option (outcome * list Z) :=
  copy (S (length input)) input output.

(** The code points the iterator yields from a position up to [last] (or
    up to the position where it throws), as a list. *)
Fixpoint code_points (n : nat) (first : list byte) : option (outcome * list N) :=
  match n with
  | O => None
  | S n' =>
      match first with
      | [] => Some (Returned, [])
      | _ :: _ =>
          match dereference first with
          | None => Some (Thrown, [])
          | Some v =>
              match increment first with
              | None => Some (Thrown, [v])
              | Some next =>
                  match code_points n' next with
                  | Some (o, vs) => Some (o, v :: vs)
                  | None => None
                  end
              end
          end
      end
  end.

Definition decode (input : list byte) : option (outcome * list N) :=
  code_points (S (length input)) input.

End Copy.

(** *** An iterator: UTF-8 decoding as [boost::u8_to_u32_iterator] does it *)

(** [utf8_byte_count(c)]: the number of leading one bits of [c], taken as
    1 when there is none and as 4 when there are more than four. *)
Definition leading_ones (c : N) : nat :=
  if negb (N.testbit c 7) then 0
  else if negb (N.testbit c 6) then 1
  else if negb (N.testbit c 5) then 2
  else if negb (N.testbit c 4) then 3
  else if negb (N.testbit c 3) then 4
  else 5.

Definition utf8_byte_count (c : N) : nat :=
  match leading_ones c with
  | O => 1
  | S (S (S (S (S _)))) => 4
  | r => r
  end.

Definition utf8_trailing_byte_count (c : N) : nat := (utf8_byte_count c - 1)%nat.

Definition is_continuation (c : N) : bool := (N.land c 192 =? 128).

(** [masks[extra]] *)
Definition masks (extra : nat) : N :=
  match extra with
  | 0%nat => 127 | 1%nat => 2047 | 2%nat => 65535 | _ => 2097151
  end.

(** The loop of [extract_current] over the trailing bytes: six bits from
    each, every one of them a continuation byte. *)
Fixpoint extract_trailing (extra : nat) (value : N) (rest : list byte) : option N :=
  match extra with
  | O => Some value
  | S extra' =>
      match rest with
      | [] => None
      | c :: rest' =>
          let c := Byte.to_N c in
          if is_continuation c
          then extract_trailing extra' (N.shiftl value 6 + N.land c 63) rest'
          else None
      end
  end.

(** [*it] *)
Definition u8_dereference (first : list byte) : option N :=
  match first with
  | [] => None
  | c :: rest =>
      let c := Byte.to_N c in
      if is_continuation c then None
      else
        let extra := utf8_trailing_byte_count c in
        match extract_trailing extra c rest with
        | None => None
        | Some v =>
            let v := N.land v (masks extra) in
            if (1114111 <? v) then None
            else if (55296 <=? v) && (v <=? 57343) then None
            else if (0 <? extra)%nat && (v <=? masks (extra - 1)) then None
            else Some v
        end
  end.

(** [++it], after the position has been dereferenced. *)
Definition u8_increment (first : list byte) : option (list byte) :=
  match first with
  | [] => None
  | c :: _ =>
      let c := Byte.to_N c in
      if is_continuation c then None
      else Some (drop (utf8_byte_count c) first)
  end.

(** A [wchar_t] of 32 bits, signed. *)
Definition wchar32_of (v : N) : Z :=
  let z := (Z.of_N v mod 2 ^ 32)%Z in
  if (z <? 2 ^ 31)%Z then z else (z - 2 ^ 32)%Z.

End UnicodeUtil.

(** ** utility/TemplateTricks.h (src/include/utility/TemplateTricks.h)

    The [foreach] and [r_foreach] macros and the [beginof], [endof],
    [r_beginof], [r_endof] overloads they are built on.  A loop body is a
    function of the loop variable (or of the element it designates) and of
    the state the body works on; bodies that assign to the loop variable or
    leave the loop early are not covered. *)
Module TemplateTricks.
Local Open Scope Z_scope.

(** How a loop ends: normally; at an operation whose behaviour is
    undefined, with the state the bodies run before it have built; or (in
    the model only) with the iteration bound used up. *)
Inductive result (S : Type) :=
| Done (s : S)
| Undefined (s : S)
| OutOfFuel.
Arguments Done {S} s.
Arguments Undefined {S} s.
Arguments OutOfFuel {S}.

(** *** The integer overloads

    The typedefs [zillians::int8] ... [zillians::uint64] are declared in a
    header that is not part of [src/]; width and signedness are taken from
    the names.  [int] has 32 bits. *)
Inductive int_type := int8 | uint8 | int16 | uint16 | int32 | uint32 | int64 | uint64.

Definition bits (t : int_type) : Z :=
  match t with
  | int8 | uint8 => 8 | int16 | uint16 => 16
  | int32 | uint32 => 32 | int64 | uint64 => 64
  end.

Definition signed (t : int_type) : bool :=
  match t with
  | int8 | int16 | int32 | int64 => true
  | uint8 | uint16 | uint32 | uint64 => false
  end.

Definition min_of (t : int_type) : Z :=
  if signed t then - 2 ^ (bits t - 1) else 0.

Definition max_of (t : int_type) : Z :=
  if signed t then 2 ^ (bits t - 1) - 1 else 2 ^ bits t - 1.

Definition in_range (t : int_type) (a : Z) : Prop := min_of t ≤ a ≤ max_of t.

(** Conversion of an [int] value to the type: reduced modulo [2 ^ bits]. *)
Definition to_type (t : int_type) (z : Z) : Z :=
  if signed t
  then (z + 2 ^ (bits t - 1)) mod 2 ^ bits t - 2 ^ (bits t - 1)
  else z mod 2 ^ bits t.

(** [beginof(a)] and [endof(a)], one pair of overloads per type. *)
Definition beginof (t : int_type) (a : Z) : Z := 0.
Definition endof (t : int_type) (a : Z) : Z := a.

(** [++i].  A type narrower than [int] is promoted, incremented as [int]
    and converted back; [int32] and [int64] overflow is undefined; the
    unsigned types wrap. *)
Definition pre_increment (t : int_type) (i : Z) : option Z :=
  if bits t <? 32 then Some (to_type t (i + 1))
  else if signed t then (if i <? max_of t then Some (i + 1) else None)
  else Some (to_type t (i + 1)).

(** [for(i = ..., e = ...; i != e; ++i) body], from the values of [i] and
    [e]; [n] bounds the number of iterations. *)
Fixpoint foreach_loop {S} (t : int_type) (n : nat) (i e : Z)
    (body : Z → S → S) (s : S) : result S :=
  match n with
  | O => OutOfFuel
  | Datatypes.S n' =>
      if i =? e then Done s
      else
        let s' := body i s in
        match pre_increment t i with
        | None => Undefined s'
        | Some i' => foreach_loop t n' i' e body s'
        end
  end.

(** [foreach(i, c) body] for a [c] of integer type [t]. *)
Definition foreach {S} (t : int_type) (n : nat) (c : Z)
    (body : Z → S → S) (s : S) : result S :=
  foreach_loop t n (beginof t c) (endof t c) body s.

(** *** The sequence overloads ([std::vector], [std::list], arrays)

    An iterator is the position it designates; [*i] at the end position
    is undefined. *)
Section Sequence.
Context {A S : Type}.

Definition seq_beginof (v : list A) : nat := 0.
Definition seq_endof (v : list A) : nat := length v.

Fixpoint seq_foreach_loop (n : nat) (v : list A) (i e : nat)
    (body : A → S → S) (s : S) : result S :=
  match n with
  | O => OutOfFuel
  | Datatypes.S n' =>
      if decide (i = e) then Done s
      else
        match v !! i with
        | None => Undefined s
        | Some x => seq_foreach_loop n' v (Datatypes.S i) e body (body x s)
        end
  end.

(** [foreach(i, v) body], the body reading [*i]. *)
Definition seq_foreach (n : nat) (v : list A) (body : A → S → S) (s : S) : result S :=
  seq_foreach_loop n v (seq_beginof v) (seq_endof v) body s.

(** A [reverse_iterator] holds a base position; it designates the element
    before it, and [++] moves the base back. *)
Record reverse_iterator := ReverseIterator { base : nat }.

Definition r_beginof (v : list A) : reverse_iterator := ReverseIterator (length v).
Definition r_endof (v : list A) : reverse_iterator := ReverseIterator 0.

Definition r_dereference (v : list A) (i : reverse_iterator) : option A :=
  match base i with
  | O => None
  | Datatypes.S k => v !! k
  end.

Definition r_increment (i : reverse_iterator) : option reverse_iterator :=
  match base i with
  | O => None
  | Datatypes.S k => Some (ReverseIterator k)
  end.

Fixpoint r_foreach_loop (n : nat) (v : list A) (i e : reverse_iterator)
    (body : A → S → S) (s : S) : result S :=
  match n with
  | O => OutOfFuel
  | Datatypes.S n' =>
      if decide (base i = base e) then Done s
      else
        match r_dereference v i with
        | None => Undefined s
        | Some x =>
            match r_increment i with
            | None => Undefined (body x s)
            | Some i' => r_foreach_loop n' v i' e body (body x s)
            end
        end
  end.

(** [r_foreach(i, v) body], the body reading [*i]. *)
Definition r_foreach (n : nat) (v : list A) (body : A → S → S) (s : S) : result S :=
  r_foreach_loop n v (r_beginof v) (r_endof v) body s.

End Sequence.

End TemplateTricks.

(** *** Ownership in a hub

    [set] hands its object to the hub: the slot holds the only
    [shared_ptr] to it. *)
Module ContextHubOwnership.
Import SharedPtr ContextHub.

(** A slot is empty, or it is the one owner of its object. *)
Definition slot_owned (st : Store) (s : shared_ptr) : Prop :=
  match pn s with
  | None => px s = null
  | Some b => blocks st !! b = Some (SpCounted (px s) 1 0)
  end.

Section Hub.
Context {TypeId : Type} `{Countable TypeId}.

(** Every slot of every hub is owned, no two slots share a control block,
    and the control blocks in use are below the allocation mark. *)
Record owned (w : World TypeId) : Prop := {
  slots_owned : ∀ a j, slot_owned (heap w) (at_ (objects_of a w) j);
  slots_distinct : ∀ a j a' j' b,
    pn (at_ (objects_of a w) j) = Some b →
    pn (at_ (objects_of a' w) j') = Some b → a = a' ∧ j = j';
  blocks_below : ∀ b c, blocks (heap w) !! b = Some c → b < next_block (heap w)
}.

(** The object a call hands to a hub: the argument of a [set], unless
    it is null; and the objects a program hands over, in call order. *)
Definition handed (c : call TypeId) : list ptr :=
  match c with
  | CSet _ _ p => if p =? null then [] else [p]
  | _ => []
  end.

Definition given (cs : list (call TypeId)) : list ptr := cs ≫= handed.

(** What a program that hands each object to a hub once keeps true: no
    object is deleted twice, every deleted object was handed in, and the
    objects in the slots are handed in, not deleted and in one slot only. *)
Record sound (w : World TypeId) (P : list ptr) : Prop := {
  sound_owned : owned w;
  deleted_once : NoDup (deleted (heap w));
  deleted_given : ∀ q, q ∈ deleted (heap w) → q ∈ P;
  slots_live : ∀ a j, px (at_ (objects_of a w) j) ≠ null →
    px (at_ (objects_of a w) j) ∈ P ∧ px (at_ (objects_of a w) j) ∉ deleted (heap w);
  slots_unshared : ∀ a j a' j', px (at_ (objects_of a w) j) ≠ null →
    px (at_ (objects_of a w) j) = px (at_ (objects_of a' w) j') → a = a' ∧ j = j'
}.

End Hub.
End ContextHubOwnership.

(** *** Several connectors

    A caller that makes one connector per engine pointer of a list, one
    [create] after the other, and keeps the handles. *)
Module TcpConnectorFactory.
Import SharedPtr TcpConnector.

Fixpoint create_all (es : list ptr) (h : Heap) : list shared_ptr * Heap :=
  match es with
  | [] => ([], h)
  | e :: es' =>
      let '(p, h1) := create e h in
      let '(ps, h2) := create_all es' h1 in
      (p :: ps, h2)
  end.

(** A handle whose connector refers to itself, the handle being the only
    owner. *)
Definition self_referring (p : shared_ptr) (h : Heap) : Prop :=
  sp_use_count p (store h) = 1%nat ∧
  ∃ c, objects h !! get p = Some c ∧ mWeakThis c = WeakPtr_ (px p) (pn p).

End TcpConnectorFactory.

(* ===================================================================== *)
(** * Part II: the theorems                                               *)
(* ===================================================================== *)

Module SharedPtrFacts.
Import SharedPtr.

(** C9: the comparison helpers agree with equality of the raw pointers and
    with each other: [a == b] holds exactly when [a.get()] is [b], and
    [a != b] holds exactly when [a == b] does not. *)
Theorem shared_ptr_comparison_consistent (a : shared_ptr) (b : ptr) :
  (operator_eq a b = true ↔ get a = b) ∧
  (operator_ne a b = true ↔ operator_eq a b ≠ true) ∧
  operator_ne a b = negb (operator_eq a b).
Proof.
  unfold operator_eq, operator_ne. split; [apply N.eqb_eq|].
  split; [|reflexivity].
  destruct (get a =? b); simpl; split; congruence.
Qed.

(** The counts of a control block under the smart-pointer operations. *)
Lemma sp_release_last x b a w st :
  blocks st !! b = Some (SpCounted a 1 (S w)) →
  sp_release (SharedPtr_ x (Some b)) st =
  MkStore (<[b := SpCounted a 0 (S w)]> (blocks st)) (next_block st)
          (delete_obj a (deleted st)).
Proof. intros Hb. unfold sp_release. cbn. by rewrite Hb. Qed.

Lemma wp_copy_block x b c st :
  blocks st !! b = Some c →
  wp_copy (WeakPtr_ x (Some b)) st =
  MkStore (<[b := SpCounted (managed c) (use_count c) (S (weak_count c))]> (blocks st))
          (next_block st) (deleted st).
Proof.
  intros Hb. unfold wp_copy. cbn. f_equal.
  apply map_eq. intros i. rewrite lookup_alter. case_decide; subst.
  - by rewrite Hb, lookup_insert_eq.
  - by rewrite lookup_insert_ne.
Qed.

Lemma wp_release_shared x b a u w st :
  blocks st !! b = Some (SpCounted a u (S (S w))) →
  wp_release (WeakPtr_ x (Some b)) st =
  MkStore (<[b := SpCounted a u (S w)]> (blocks st)) (next_block st) (deleted st).
Proof. intros Hb. unfold wp_release. cbn. by rewrite Hb. Qed.

Lemma wp_expired_block x b c st :
  blocks st !! b = Some c →
  wp_expired (WeakPtr_ x (Some b)) st = Nat.eqb (use_count c) 0.
Proof. intros Hb. unfold wp_expired, wp_use_count. cbn. by rewrite Hb. Qed.

Lemma sp_release_null st : sp_release sp_null st = st.
Proof. done. Qed.

End SharedPtrFacts.

Module ContextHubFacts.
Import SharedPtr ContextHub.

Section Hub.
Context {TypeId : Type} `{Countable TypeId}.
Implicit Types (T U : TypeId) (w : World TypeId) (v : list shared_ptr) (this : N).

Lemma at_app_null v j : at_ (v ++ [sp_null]) j = at_ v j.
Proof.
  unfold at_. destruct (decide (j < length v)%nat) as [Hlt|Hge].
  - by rewrite lookup_app_l.
  - rewrite (lookup_ge_None_2 v j) by lia.
    rewrite lookup_app_r by lia.
    by destruct (j - length v)%nat as [|[|?]].
Qed.

Lemma at_insert_eq v i a : (i < length v)%nat → at_ (<[i := a]> v) i = a.
Proof. intros Hi. unfold at_. by rewrite list_lookup_insert_eq. Qed.

Lemma at_insert_ne v i j a : i ≠ j → at_ (<[i := a]> v) j = at_ v j.
Proof. intros Hi. unfold at_. by rewrite list_lookup_insert_ne. Qed.

Lemma at_ge v j : (length v ≤ j)%nat → at_ v j = sp_null.
Proof. intros Hj. unfold at_. by rewrite lookup_ge_None_2. Qed.

Lemma grow_at n i v j : at_ (grow n i v) j = at_ v j.
Proof.
  revert v. induction n as [|n IH]; intros v; simpl; [done|].
  case_decide; [|done]. by rewrite IH, at_app_null.
Qed.

(** The loop stops with the slot in range when it may run often enough. *)
Lemma grow_length n i v :
  (S i - length v ≤ n)%nat → (i < length (grow n i v))%nat.
Proof.
  revert v. induction n as [|n IH]; intros v Hn; simpl; [lia|].
  case_decide; [|lia]. apply IH. rewrite length_app. simpl. lia.
Qed.

Lemma grow_length_le n i v :
  (length (grow n i v) ≤ max (length v) (S i))%nat.
Proof.
  revert v. induction n as [|n IH]; intros v; simpl; [lia|].
  case_decide; [|lia]. etrans; [apply IH|]. rewrite length_app. simpl. lia.
Qed.

(** The guarded loop of [refContext], as one expression. *)
Lemma ensure_at i v j :
  at_ (if decide (length v ≤ i)%nat then grow (S i) i v else v) j = at_ v j.
Proof. case_decide; [apply grow_at|done]. Qed.

Lemma ensure_length i v :
  (i < length (if decide (length v ≤ i)%nat then grow (S i) i v else v))%nat.
Proof. case_decide; [apply grow_length|]; lia. Qed.

Lemma ensure_length_le i v :
  (length (if decide (length v ≤ i)%nat then grow (S i) i v else v)
     ≤ max (length v) (S i))%nat.
Proof. case_decide; [apply grow_length_le|lia]. Qed.

Lemma ensure_id i v :
  (i < length v)%nat → (if decide (length v ≤ i)%nat then grow (S i) i v else v) = v.
Proof. intros Hi. by rewrite decide_False by lia. Qed.

(** Reading the vector of a hub after the hub table was updated. *)
Lemma objects_of_insert this a v n i hs st :
  objects_of a (MkWorld (TypeId := TypeId) n i (<[this := MkHub v]> hs) st) =
  if decide (this = a) then v else objects_of a (MkWorld n i hs st).
Proof.
  unfold objects_of. cbn [hubs]. case_decide; subst.
  - by rewrite lookup_insert_eq.
  - by rewrite lookup_insert_ne.
Qed.

(** What [refContext<T>()] leaves behind. *)
Lemma refContext_post this T w :
  ∃ k, (refContext this T w).1 = N.to_nat k ∧
       index (refContext this T w).2 !! T = Some k ∧
       ((refContext this T w).1 < length (objects_of this (refContext this T w).2))%nat ∧
       (length (objects_of this (refContext this T w).2)
          ≤ max (length (objects_of this w)) (S (N.to_nat k)))%nat ∧
       heap (refContext this T w).2 = heap w ∧
       (∀ a j, at_ (objects_of a (refContext this T w).2) j = at_ (objects_of a w) j) ∧
       (∀ a, a ≠ this → objects_of a (refContext this T w).2 = objects_of a w) ∧
       ((index w !! T = Some k ∧ index (refContext this T w).2 = index w ∧
         msContextIndexer (refContext this T w).2 = msContextIndexer w) ∨
        (index w !! T = None ∧ k = msContextIndexer w ∧
         index (refContext this T w).2 = <[T := k]> (index w) ∧
         msContextIndexer (refContext this T w).2 = (k + 1) mod uint32_modulus)).
Proof.
  unfold refContext, static_index.
  destruct (index w !! T) as [k|] eqn:Hk;
    cbn [fst snd msContextIndexer index heap].
  - exists k. rewrite Hk. destruct w as [n i hs st].
    cbn [msContextIndexer index heap hubs]. rewrite !objects_of_insert.
    rewrite decide_True by done.
    split_and!; auto using ensure_length, ensure_length_le.
    + intros a j. rewrite objects_of_insert. case_decide; subst; [apply ensure_at|done].
    + intros a Ha. rewrite objects_of_insert. by rewrite decide_False.
  - exists (msContextIndexer w). rewrite lookup_insert_eq. destruct w as [n i hs st].
    cbn [msContextIndexer index heap hubs]. rewrite !objects_of_insert.
    rewrite decide_True by done.
    split_and!; auto using ensure_length, ensure_length_le.
    + intros a j. rewrite objects_of_insert. case_decide; subst; [apply ensure_at|done].
    + intros a Ha. rewrite objects_of_insert. by rewrite decide_False.
Qed.

(** Once [T] has its index and the hub has the slot, [refContext<T>()]
    changes nothing. *)
Lemma refContext_known this T w k :
  index w !! T = Some k →
  (N.to_nat k < length (objects_of this w))%nat →
  refContext this T w = (N.to_nat k, w).
Proof.
  intros Hk Hlt. unfold refContext, static_index. rewrite Hk.
  rewrite ensure_id by done. destruct w as [n i hs st]. f_equal. f_equal.
  unfold objects_of in *. cbn [hubs] in *.
  destruct (hs !! this) as [[v]|] eqn:Hv; cbn in *; [|lia].
  by apply insert_id.
Qed.

(** The value [get<T>()] returns, through [refContext]. *)
Lemma get_value this T w :
  (get this T w).1 = px (at_ (objects_of this w) (refContext this T w).1).
Proof.
  unfold get. destruct (refContext_post this T w) as (k & _ & _ & _ & _ & _ & Hat & _).
  destruct (refContext this T w) as [i w1]; simpl in *. by rewrite Hat.
Qed.

(** Round trip: [get<T>()] after [set<T>(p)] is [p], in every state. *)
Lemma get_set this T p w : (get this T (set this T p w)).1 = p.
Proof.
  unfold set, sp_from_raw. destruct (refContext_post this T w) as (k & Hi & Hk & Hlt & _).
  destruct (refContext this T w) as [i w1]; cbn [fst snd] in *. subst i.
  rewrite get_value.
  erewrite refContext_known; [|exact Hk|];
    rewrite objects_of_insert, decide_True by done.
  - cbn [fst]. by rewrite at_insert_eq.
  - by rewrite length_insert.
Qed.

(** [get<T>()] after [reset<T>()] is the null pointer, in every state. *)
Lemma get_reset this T w : (get this T (reset this T w)).1 = null.
Proof.
  unfold reset. destruct (refContext_post this T w) as (k & Hi & Hk & Hlt & _).
  destruct (refContext this T w) as [i w1]; cbn [fst snd] in *. subst i.
  rewrite get_value.
  erewrite refContext_known; [|exact Hk|];
    rewrite objects_of_insert, decide_True by done.
  - cbn [fst]. by rewrite at_insert_eq.
  - by rewrite length_insert.
Qed.

(** With the counter not wrapped, [get<T>()] reads the stored pointer. *)
Lemma get_stored this T w : consistent w → (get this T w).1 = stored this T w.
Proof.
  intros Hw. rewrite get_value. unfold stored.
  destruct (refContext_post this T w)
    as (k & Hi & _ & _ & _ & _ & _ & _ & [(Hk & _)|(Hk & -> & _)]);
    rewrite Hi, Hk; [done|].
  rewrite at_ge; [done|]. pose proof (objects_below w Hw this). lia.
Qed.

(** One slot per type: the index of [T] is not the index of another type. *)
Lemma refContext_index_ne this T U w j :
  consistent w → U ≠ T → index w !! U = Some j → (refContext this T w).1 ≠ N.to_nat j.
Proof.
  intros Hw HUT Hj.
  destruct (refContext_post this T w)
    as (k & Hi & _ & _ & _ & _ & _ & _ & [(Hk & _)|(Hk & -> & _)]);
    rewrite Hi; intros Heq%(inj N.to_nat).
  - subst. apply HUT. eapply index_inj; eauto.
  - pose proof (index_below w Hw U j Hj). lia.
Qed.

Lemma refContext_index_other this T U w :
  U ≠ T → index (refContext this T w).2 !! U = index w !! U.
Proof.
  intros HUT.
  destruct (refContext_post this T w)
    as (k & _ & _ & _ & _ & _ & _ & _ & [(_ & -> & _)|(_ & _ & -> & _)]);
    [done|]. by rewrite lookup_insert_ne.
Qed.

(** [refContext] may give a type its index; no stored pointer changes. *)
Lemma stored_refContext this T a U w :
  consistent w → stored a U (refContext this T w).2 = stored a U w.
Proof.
  intros Hw. unfold stored.
  destruct (refContext_post this T w)
    as (k & _ & Hk & _ & _ & _ & Hat & _ & Hcase).
  destruct (decide (U = T)) as [->|HUT].
  - rewrite Hk, Hat. destruct Hcase as [(-> & _)|(-> & -> & _)]; [done|].
    rewrite at_ge; [done|]. pose proof (objects_below w Hw a). lia.
  - rewrite refContext_index_other by done.
    destruct (index w !! U); [|done]. by rewrite Hat.
Qed.

(** The stored pointers after [set<T>(p)] on the hub at [this]: that one
    slot holds [p], every other slot of every hub is as before. *)
Lemma stored_set this T p a U w :
  consistent w →
  stored a U (set this T p w) =
  if decide (a = this ∧ U = T) then p else stored a U w.
Proof.
  intros Hw. rewrite <-(stored_refContext this T a U w Hw).
  pose proof (refContext_index_ne this T U w) as Hne.
  pose proof (refContext_index_other this T U w) as Hidx.
  unfold set, sp_from_raw, stored.
  destruct (refContext_post this T w) as (k & Hi & Hk & Hlt & _).
  destruct (refContext this T w) as [i w1]; cbn [fst snd] in *. subst i.
  cbn [index]. rewrite objects_of_insert.
  destruct (decide (this = a)) as [<-|Ha].
  - destruct (decide (U = T)) as [->|HUT].
    + rewrite decide_True by done. by rewrite Hk, at_insert_eq.
    + rewrite decide_False by tauto.
      destruct (index w1 !! U) as [j|] eqn:Hj; [|done].
      rewrite at_insert_ne; [done|]. apply Hne; [done..|]. by rewrite <-Hidx.
  - rewrite decide_False by (intros [? _]; congruence). done.
Qed.

Lemma stored_reset this T a U w :
  consistent w →
  stored a U (reset this T w) =
  if decide (a = this ∧ U = T) then null else stored a U w.
Proof.
  intros Hw. rewrite <-(stored_refContext this T a U w Hw).
  pose proof (refContext_index_ne this T U w) as Hne.
  pose proof (refContext_index_other this T U w) as Hidx.
  unfold reset, stored.
  destruct (refContext_post this T w) as (k & Hi & Hk & Hlt & _).
  destruct (refContext this T w) as [i w1]; cbn [fst snd] in *. subst i.
  cbn [index]. rewrite objects_of_insert.
  destruct (decide (this = a)) as [<-|Ha].
  - destruct (decide (U = T)) as [->|HUT].
    + rewrite decide_True by done. by rewrite Hk, at_insert_eq.
    + rewrite decide_False by tauto.
      destruct (index w1 !! U) as [j|] eqn:Hj; [|done].
      rewrite at_insert_ne; [done|]. apply Hne; [done..|]. by rewrite <-Hidx.
  - rewrite decide_False by (intros [? _]; congruence). done.
Qed.

Lemma stored_get this T a U w :
  consistent w → stored a U (get this T w).2 = stored a U w.
Proof.
  intros Hw. rewrite <-(stored_refContext this T a U w Hw).
  unfold get. by destruct (refContext this T w) as [i w1].
Qed.

(** [consistent] is kept while the counter has room for one more type. *)
Lemma uint32_succ k : k + 1 < uint32_modulus → (k + 1) mod uint32_modulus = k + 1.
Proof. intros Hk. by apply N.mod_small. Qed.

Lemma refContext_consistent this T w :
  consistent w → room 1 w → consistent (refContext this T w).2.
Proof.
  intros [Hr Hb Hi Ho] Hroom. unfold room in Hroom.
  destruct (refContext_post this T w) as (k & _ & Hk & _ & Hlen & _ & _ & Hoth & Hcase).
  assert (k < msContextIndexer (refContext this T w).2 →
          msContextIndexer w ≤ msContextIndexer (refContext this T w).2 →
          ∀ a, N.of_nat (length (objects_of a (refContext this T w).2))
               ≤ msContextIndexer (refContext this T w).2) as Hobjs.
  { intros Hlt Hle a. destruct (decide (a = this)) as [->|Ha].
    - pose proof (Ho this). lia.
    - rewrite Hoth by done. pose proof (Ho a). lia. }
  destruct Hcase as [(Hk0 & Hidx & Hctr)|(Hk0 & -> & Hidx & Hctr)].
  - split; [by rewrite Hctr|rewrite Hidx, Hctr; auto|rewrite Hidx; auto|].
    apply Hobjs; rewrite Hctr; [by apply Hb in Hk0|lia].
  - rewrite uint32_succ in Hctr by done.
    split; [by rewrite Hctr|rewrite Hidx, Hctr|rewrite Hidx|].
    + intros U i. destruct (decide (U = T)) as [->|Hne].
      * rewrite lookup_insert_eq. intros [= <-]. lia.
      * rewrite lookup_insert_ne by congruence. intros Hi'%Hb. lia.
    + intros U V i. destruct (decide (U = T)) as [->|HU], (decide (V = T)) as [->|HV];
        rewrite ?lookup_insert_eq, ?lookup_insert_ne by congruence; try done.
      * intros [= <-] Hlt%Hb. lia.
      * intros Hlt%Hb [= <-]. lia.
      * apply Hi.
    + apply Hobjs; rewrite Hctr; lia.
Qed.

Lemma refContext_room this T w n :
  room (n + 1) w → room n (refContext this T w).2.
Proof.
  unfold room. intros Hroom.
  destruct (refContext_post this T w) as (k & _ & _ & _ & _ & _ & _ & _ & Hcase).
  destruct Hcase as [(_ & _ & ->)|(_ & -> & _ & ->)]; [lia|].
  rewrite uint32_succ; lia.
Qed.

(** A call leaves the statics as its [refContext] left them, and the
    lengths of the vectors too. *)
Lemma exec_statics c w :
  ∃ this T, msContextIndexer (exec c w) = msContextIndexer (refContext this T w).2 ∧
       index (exec c w) = index (refContext this T w).2 ∧
       ∀ a, length (objects_of a (exec c w)) = length (objects_of a (refContext this T w).2).
Proof.
  destruct c as [this T p|this T|this T]; exists this, T; simpl;
    unfold set, get, reset, sp_from_raw;
    destruct (refContext this T w) as [i w1]; cbn [fst snd msContextIndexer index];
    (split_and!; [done..|]); intros a; try done;
    rewrite objects_of_insert; case_decide; subst; by rewrite ?length_insert.
Qed.

Lemma exec_consistent c w : consistent w → room 1 w → consistent (exec c w).
Proof.
  intros Hw Hroom. destruct (exec_statics c w) as (this & T & Hc & Hi & Hl).
  destruct (refContext_consistent this T w Hw Hroom) as [? ? ? Ho].
  split; rewrite ?Hc, ?Hi; try done. intros a. rewrite Hl. apply Ho.
Qed.

Lemma exec_room c w n : room (n + 1) w → room n (exec c w).
Proof.
  intros Hroom. destruct (exec_statics c w) as (this & T & Hc & _ & _).
  unfold room. rewrite Hc. by apply refContext_room.
Qed.

Lemma run_consistent cs w n :
  consistent w → room (N.of_nat (length cs) + n) w →
  consistent (run cs w) ∧ room n (run cs w).
Proof.
  revert w. induction cs as [|c cs IH]; intros w Hw Hroom; simpl in *; [done|].
  assert (room (N.of_nat (length cs) + n + 1) w) as Hroom' by (unfold room in *; lia).
  apply IH; [apply exec_consistent; [done|]|by apply exec_room].
  unfold room in *. lia.
Qed.

(** A call that is not a [set<T>] on the hub keeps its pointer for [T] null. *)
Lemma stored_exec_null this T c w :
  consistent w → sets this T c = false →
  stored this T w = null → stored this T (exec c w) = null.
Proof.
  intros Hw Hc Hnull. destruct c as [a U p|a U|a U]; cbn [exec sets] in *.
  - rewrite stored_set by done.
    destruct (decide (this = a ∧ T = U)) as [[-> ->]|Hne]; [|done].
    by rewrite !bool_decide_eq_true_2 in Hc.
  - by rewrite stored_get.
  - rewrite stored_reset by done. by destruct (decide (this = a ∧ T = U)).
Qed.

Lemma stored_run_null this T cs w :
  consistent w → room (N.of_nat (length cs)) w →
  forallb (λ c, negb (sets this T c)) cs = true →
  stored this T w = null → stored this T (run cs w) = null.
Proof.
  revert w. induction cs as [|c cs IH]; intros w Hw Hroom Hcs Hnull; simpl in *; [done|].
  apply andb_prop in Hcs as [Hc Hcs]. apply negb_true_iff in Hc.
  assert (room (N.of_nat (length cs) + 1) w) as Hroom' by (unfold room in *; lia).
  apply IH; [|by apply exec_room|done|by apply stored_exec_null].
  apply exec_consistent; [done|]. unfold room in *. lia.
Qed.

Lemma stored_fresh this T w : objects_of this w = [] → stored this T w = null.
Proof. intros Hv. unfold stored. rewrite Hv. by destruct (index w !! T). Qed.

Lemma initial_consistent : consistent (initial (TypeId := TypeId)).
Proof. by split. Qed.

(** The counter moves only for a type without an index, so room is
    needed for such a type only. *)
Lemma refContext_consistent_new this T w :
  consistent w → (index w !! T = None → room 1 w) → consistent (refContext this T w).2.
Proof.
  intros Hw Hroom. destruct (index w !! T) as [k|] eqn:Hk;
    [|apply refContext_consistent; auto].
  destruct Hw as [Hr Hb Hi Ho].
  destruct (refContext_post this T w)
    as (k' & _ & _ & _ & Hlen & _ & _ & Hoth & [(Hk0 & Hidx & Hctr)|(Hk0 & _)]);
    [|congruence].
  rewrite Hk in Hk0. injection Hk0 as <-.
  split; [by rewrite Hctr|rewrite Hidx, Hctr; auto|rewrite Hidx; auto|].
  intros a. rewrite Hctr. destruct (decide (a = this)) as [->|Ha].
  - pose proof (Ho this). apply Hb in Hk. lia.
  - rewrite Hoth by done. apply Ho.
Qed.

Lemma types_room_unindexed X T w :
  T ∈ X → index w !! T = None → types_room X w → room 1 w.
Proof.
  intros HT Hk Hroom. unfold types_room, room in *.
  assert (T ∈ X ∖ dom (index w)) as Hin.
  { apply elem_of_difference. split; [done|]. by apply not_elem_of_dom. }
  assert (size (X ∖ dom (index w)) ≠ 0%nat) as Hsize.
  { intros Hz. apply size_empty_inv in Hz. apply Hz in Hin. by apply not_elem_of_empty in Hin. }
  lia.
Qed.

Lemma refContext_types_room this T X w :
  T ∈ X → types_room X w → types_room X (refContext this T w).2.
Proof.
  intros HT Hroom.
  destruct (refContext_post this T w)
    as (k & _ & _ & _ & _ & _ & _ & _ & [(_ & Hidx & Hctr)|(Hk & -> & Hidx & Hctr)]).
  - unfold types_room. by rewrite Hidx, Hctr.
  - pose proof (types_room_unindexed X T w HT Hk Hroom) as Hroom1.
    unfold types_room, room in *. rewrite Hidx, Hctr, uint32_succ by done.
    rewrite dom_insert_L.
    assert (X ∖ dom (index w) = {[T]} ∪ X ∖ ({[T]} ∪ dom (index w))) as Hsplit.
    { apply set_eq. intros U. rewrite elem_of_union, !elem_of_difference,
        elem_of_union, elem_of_singleton.
      destruct (decide (U = T)) as [->|HU]; [|tauto].
      apply not_elem_of_dom in Hk. tauto. }
    rewrite Hsplit, size_union, size_singleton in Hroom; [lia|].
    intros U ->%elem_of_singleton [_ Hnot]%elem_of_difference.
    apply Hnot, elem_of_union. left. by apply elem_of_singleton.
Qed.

(** The statics a call leaves are those of its own [refContext]. *)
Lemma exec_statics_own c w :
  ∃ this, msContextIndexer (exec c w)
            = msContextIndexer (refContext this (call_type c) w).2 ∧
          index (exec c w) = index (refContext this (call_type c) w).2 ∧
          ∀ a, length (objects_of a (exec c w))
               = length (objects_of a (refContext this (call_type c) w).2).
Proof.
  destruct c as [this T p|this T|this T]; exists this; simpl;
    unfold set, get, reset, sp_from_raw;
    destruct (refContext this T w) as [i w1]; cbn [fst snd msContextIndexer index];
    (split_and!; [done..|]); intros a; try done;
    rewrite objects_of_insert; case_decide; subst; by rewrite ?length_insert.
Qed.

Lemma exec_consistent_types c X w :
  consistent w → call_type c ∈ X → types_room X w →
  consistent (exec c w) ∧ types_room X (exec c w).
Proof.
  intros Hw Hc Hroom. destruct (exec_statics_own c w) as (this & Hctr & Hidx & Hl).
  destruct (refContext_consistent_new this (call_type c) w Hw) as [? ? ? Ho].
  { intros Hk. by apply (types_room_unindexed X (call_type c)). }
  pose proof (refContext_types_room this (call_type c) X w Hc Hroom) as Hroom'.
  split.
  - split; rewrite ?Hctr, ?Hidx; try done. intros a. rewrite Hl. apply Ho.
  - unfold types_room in *. by rewrite Hctr, Hidx.
Qed.

Lemma types_of_cons (c : call TypeId) cs :
  types_of (c :: cs) = {[call_type c]} ∪ types_of cs.
Proof. done. Qed.

Lemma run_consistent_types cs X w :
  consistent w → types_of cs ⊆ X → types_room X w →
  consistent (run cs w) ∧ types_room X (run cs w).
Proof.
  revert w. induction cs as [|c cs IH]; intros w Hw Hsub Hroom; [done|].
  rewrite types_of_cons in Hsub.
  change (run (c :: cs) w) with (run cs (exec c w)).
  destruct (exec_consistent_types c X w Hw) as [Hw' Hroom']; [|done|].
  { apply Hsub, elem_of_union. left. by apply elem_of_singleton. }
  apply IH; [done| |done]. intros U HU. apply Hsub, elem_of_union. by right.
Qed.

Lemma stored_run_null_types this T cs X w :
  consistent w → types_of cs ⊆ X → types_room X w →
  forallb (λ c, negb (sets this T c)) cs = true →
  stored this T w = null → stored this T (run cs w) = null.
Proof.
  revert w. induction cs as [|c cs IH]; intros w Hw Hsub Hroom Hcs Hnull; [done|].
  rewrite types_of_cons in Hsub.
  change (run (c :: cs) w) with (run cs (exec c w)).
  cbn [forallb] in Hcs. apply andb_prop in Hcs as [Hc Hcs]. apply negb_true_iff in Hc.
  destruct (exec_consistent_types c X w Hw) as [Hw' Hroom']; [|done|].
  { apply Hsub, elem_of_union. left. by apply elem_of_singleton. }
  apply IH; [done| |done|done|by apply stored_exec_null].
  intros U HU. apply Hsub, elem_of_union. by right.
Qed.

(** C8: a hub is a store of one slot per type.  Take any hub, not used
    before, and any program of calls on this and other hubs, of any
    length, as long as the [uint32] counter has room for the types that
    the program and [T] bring in.  Afterwards [get<T>()] on the hub is null
    when no [set<T>] on it was among the calls; [get<T>()] after
    [set<T>(p)] is [p]; [get<T>()] after [reset<T>()] is null; and for
    another type [U], [set<T>(p)] and [reset<T>()] do not change what
    [get<U>()] returns. *)
Theorem context_hub_slot_per_type (this : N) (T : TypeId) (p : ptr)
    (w0 : World TypeId) (cs : list (call TypeId)) :
  consistent w0 →
  objects_of this w0 = [] →
  types_room (types_of cs ∪ {[T]}) w0 →
  (forallb (λ c, negb (sets this T c)) cs = true →
     (get this T (run cs w0)).1 = null) ∧
  (get this T (set this T p (run cs w0))).1 = p ∧
  (get this T (reset this T (run cs w0))).1 = null ∧
  (∀ U, U ≠ T →
     (get this U (set this T p (run cs w0))).1 = (get this U (run cs w0)).1 ∧
     (get this U (reset this T (run cs w0))).1 = (get this U (run cs w0)).1).
Proof.
  intros Hw0 Hfresh Hroom.
  assert (types_of cs ⊆ types_of cs ∪ {[T]}) as Hsub by apply union_subseteq_l.
  assert (T ∈ types_of cs ∪ {[T]}) as HT
    by (apply elem_of_union; right; by apply elem_of_singleton).
  destruct (run_consistent_types cs _ w0 Hw0 Hsub Hroom) as [Hw Hroom1].
  split_and!.
  - intros Hcs. rewrite get_stored by done.
    apply (stored_run_null_types this T cs (types_of cs ∪ {[T]}));
      auto using stored_fresh.
  - apply get_set.
  - apply get_reset.
  - intros U HUT. split.
    + rewrite !get_stored; [|done|].
      * rewrite stored_set by done. by rewrite decide_False by tauto.
      * by apply (exec_consistent_types (CSet this T p) (types_of cs ∪ {[T]})).
    + rewrite !get_stored; [|done|].
      * rewrite stored_reset by done. by rewrite decide_False by tauto.
      * by apply (exec_consistent_types (CReset this T) (types_of cs ∪ {[T]})).
Qed.

(** X14: Hubs do not share slots: a call on one hub changes no pointer that
    another hub returns. *)
Lemma get_other_hub this a T U p w :
  consistent w → room 1 w → a ≠ this →
  (get a U (set this T p w)).1 = (get a U w).1 ∧
  (get a U (reset this T w)).1 = (get a U w).1.
Proof.
  intros Hw Hroom Ha. split.
  - rewrite !get_stored; [|done|by apply (exec_consistent (CSet this T p))].
    rewrite stored_set by done. by rewrite decide_False by tauto.
  - rewrite !get_stored; [|done|by apply (exec_consistent (CReset this T))].
    rewrite stored_reset by done. by rewrite decide_False by tauto.
Qed.

End Hub.

(** The theorem at a concrete program: types [0], [1], [2] and hubs [10]
    and [11], from program start. *)
Lemma context_hub_slot_per_type_witness :
  consistent (initial (TypeId := nat)) ∧
  objects_of 10 (initial (TypeId := nat)) = [] ∧
  types_room
    (types_of [CSet 10 1%nat 9; CSet 11 0%nat 6; CGet 10 2%nat; CReset 10 1%nat]
       ∪ {[0%nat]}) (initial (TypeId := nat)) ∧
  (get 10 0%nat
     (run [CSet 10 1%nat 9; CSet 11 0%nat 6; CGet 10 2%nat; CReset 10 1%nat] initial)).1
    = null ∧
  (get 10 0%nat
     (set 10 0%nat 7
        (run [CSet 10 1%nat 9; CSet 11 0%nat 6; CGet 10 2%nat; CReset 10 1%nat] initial))).1
    = 7.
Proof.
  assert (types_room
            (types_of [CSet 10 1%nat 9; CSet 11 0%nat 6; CGet 10 2%nat; CReset 10 1%nat]
               ∪ {[0%nat]}) (initial (TypeId := nat))) as Hroom
    by (vm_compute; reflexivity).
  destruct (context_hub_slot_per_type 10 0%nat 7 initial
              [CSet 10 1%nat 9; CSet 11 0%nat 6; CGet 10 2%nat; CReset 10 1%nat]
              initial_consistent eq_refl Hroom)
    as (Hnever & Hset & _).
  split_and!; [apply initial_consistent|reflexivity|exact Hroom|..].
  - apply Hnever. reflexivity.
  - exact Hset.
Defined.

(** Values on a small program: [set] of one type on one hub is seen by
    [get] of that type on that hub only, and a replaced object is deleted. *)
Example hub_run_values :
  let w := run [CSet 10 1%nat 9; CSet 10 2%nat 5; CSet 11 1%nat 4; CSet 10 1%nat 8]
               (initial (TypeId := nat)) in
  (get 10 1%nat w).1 = 8 ∧ (get 10 2%nat w).1 = 5 ∧ (get 10 3%nat w).1 = null ∧
  (get 11 1%nat w).1 = 4 ∧ (get 11 2%nat w).1 = null ∧
  deleted (heap w) = [9].
Proof. vm_compute. done. Qed.

End ContextHubFacts.

Module TcpConnectorFacts.
Import SharedPtr SharedPtrFacts TcpConnector.

Implicit Types (c : TcpConnector) (o : Op) (os : list Op) (s : Status).

(** Unfolds a member function down to the record it returns. *)
Ltac run_member :=
  unfold step, connect, cancel, handleChannelEvent, handleTimeoutEvent,
    handleConnected, cleanup, call_mConnectorCallback, set_mStatus,
    set_mConnectInfo, set_mWeakThis, set_mConnectorCallback, this,
    state_of, trace_of, value_of, armed, mbind, M_bind, mret, M_ret;
  cbn.

Lemma run_cons o os c :
  run (o :: os) c =
  (tt, state_of (run os (state_of (step o c))),
   trace_of (step o c) ++ trace_of (run os (state_of (step o c)))).
Proof.
  cbn [run]. unfold mbind, M_bind, state_of, trace_of.
  destruct (step o c) as [[[] c1] t1]. cbn [fst snd].
  by destruct (run os c1) as [[[] c2] t2].
Qed.

Lemma run_app os1 os2 c :
  run (os1 ++ os2) c =
  (tt, state_of (run os2 (state_of (run os1 c))),
   trace_of (run os1 c) ++ trace_of (run os2 (state_of (run os1 c)))).
Proof.
  revert c. induction os1 as [|o os1 IH]; intros c.
  - simpl. unfold state_of, trace_of. simpl.
    by destruct (run os2 c) as [[[] c2] t2].
  - rewrite <-app_comm_cons, !run_cons, IH.
    unfold state_of, trace_of. cbn [fst snd]. by rewrite app_assoc.
Qed.

(** An operation on a connector that is not IDLE and not CONNECTING does
    nothing: the state is the same and no event is emitted. *)
Lemma step_inert o c :
  mStatus c ≠ IDLE → mStatus c ≠ CONNECTING → step o c = (tt, c, []).
Proof.
  intros Hidle Hconn. destruct o; run_member; try destruct probe;
    repeat case_decide; done.
Qed.

Lemma terminal_inert s : terminal s = true → s ≠ IDLE ∧ s ≠ CONNECTING.
Proof. by destruct s. Qed.

Lemma run_inert os c :
  mStatus c ≠ IDLE → mStatus c ≠ CONNECTING → run os c = (tt, c, []).
Proof.
  intros Hidle Hconn. induction os as [|o os IH]; [done|].
  rewrite run_cons, step_inert by done. unfold state_of, trace_of. cbn [fst snd].
  by rewrite IH.
Qed.

Lemma callbacks_app (t1 t2 : list Event) :
  callbacks (t1 ++ t2) = callbacks t1 ++ callbacks t2.
Proof. apply List.filter_app. Qed.

(** One operation calls the callback at most once, and a connector that
    has called it is in a terminal state. *)
Lemma step_callbacks o c :
  (length (callbacks (trace_of (step o c))) ≤ 1)%nat ∧
  (callbacks (trace_of (step o c)) ≠ [] →
   terminal (mStatus (state_of (step o c))) = true).
Proof.
  destruct o; run_member; try destruct probe; repeat case_decide;
    destruct (mConnectorCallback c); cbn; split; (lia || done).
Qed.

Lemma run_callbacks_le os c :
  (length (callbacks (trace_of (run os c))) ≤ 1)%nat.
Proof.
  revert c. induction os as [|o os IH]; intros c; [simpl; lia|].
  rewrite run_cons. unfold trace_of at 1. cbn [snd]. rewrite callbacks_app.
  destruct (step_callbacks o c) as [Hle Hterm].
  destruct (callbacks (trace_of (step o c))) as [|e t] eqn:Ht.
  - apply IH.
  - apply terminal_inert in Hterm as [? ?]; [|done].
    rewrite run_inert by done. rewrite length_app. simpl in *. lia.
Qed.

(** An accepted [cancel()] ends in CANCELED with both watchers stopped,
    having assigned CANCELING and then CANCELED and called nothing. *)
Lemma cancel_connecting c :
  mStatus c = CONNECTING →
  trace_of (cancel c) = [EvStatus CANCELING; EvStatus CANCELED] ∧
  mStatus (state_of (cancel c)) = CANCELED ∧
  armed (state_of (cancel c)) = (false, false).
Proof. intros Hc. run_member. by rewrite decide_True. Qed.

Lemma cancel_elsewhere c : mStatus c ≠ CONNECTING → cancel c = (tt, c, []).
Proof. intros Hc. run_member. by rewrite decide_False. Qed.



(** While CONNECTING, the callback is set and both watchers are started. *)
Definition connecting_ready c : Prop :=
  mStatus c = CONNECTING →
  is_Some (mConnectorCallback c) ∧ armed c = (true, true).

Lemma step_connecting_ready o c :
  connecting_ready c → connecting_ready (state_of (step o c)).
Proof.
  unfold connecting_ready. intros Hc.
  destruct o; run_member; try destruct probe; repeat case_decide; cbn;
    try done; try (intros _; split; [by eexists|done]).
Qed.

Lemma run_connecting_ready os c :
  connecting_ready c → connecting_ready (state_of (run os c)).
Proof.
  revert c. induction os as [|o os IH]; intros c Hc; [done|].
  rewrite run_cons. unfold state_of at 1. cbn [fst snd].
  by apply IH, step_connecting_ready.
Qed.

Lemma constructed_connecting_ready engine : connecting_ready (TcpConnector_ engine).
Proof. by intros ?. Qed.

(** The two event handlers on a connector that is CONNECTING. *)
Lemma handleTimeoutEvent_connecting c :
  mStatus c = CONNECTING →
  trace_of (handleTimeoutEvent c) =
    EvStatus ERROR ::
    match mConnectorCallback c with
    | Some cb => [EvCallback cb sp_null TimedOut]
    | None => []
    end ∧
  mStatus (state_of (handleTimeoutEvent c)) = ERROR ∧
  armed (state_of (handleTimeoutEvent c)) = (false, false).
Proof.
  intros Hc. run_member. rewrite decide_True by done. cbn.
  by destruct (mConnectorCallback c).
Qed.

Lemma handleChannelEvent_connecting probe c :
  mStatus c = CONNECTING →
  trace_of (handleChannelEvent probe c) =
    match probe with
    | Completed conn =>
        EvStatus CONNECTED ::
        match mConnectorCallback c with
        | Some cb => [EvCallback cb conn Ok]
        | None => []
        end
    | Failed code =>
        EvStatus ERROR ::
        match mConnectorCallback c with
        | Some cb => [EvCallback cb sp_null code]
        | None => []
        end
    end ∧
  mStatus (state_of (handleChannelEvent probe c)) =
    match probe with Completed _ => CONNECTED | Failed _ => ERROR end ∧
  armed (state_of (handleChannelEvent probe c)) = (false, false).
Proof.
  intros Hc. run_member. rewrite decide_True by done.
  destruct probe; cbn; by destruct (mConnectorCallback c).
Qed.

Lemma handler_dropped o c :
  terminal (mStatus c) = true → step o c = (tt, c, []).
Proof. intros [? ?]%terminal_inert. by apply step_inert. Qed.

(** C1: over the whole life of a connector, from its construction through
    any sequence of [connect], [cancel] and event deliveries, the user's
    callback is called at most once; and once a [cancel()] was accepted
    (issued while CONNECTING) nothing more happens: the events of the whole
    run are those up to the cancel followed by the two status changes of
    the cancel, so no later event calls the callback. *)
Theorem callback_at_most_once_never_after_cancel (engine : ptr) (os : list Op) :
  (length (callbacks (trace_of (run os (TcpConnector_ engine)))) ≤ 1)%nat ∧
  (∀ os1 os2,
     os = os1 ++ OCancel :: os2 →
     mStatus (state_of (run os1 (TcpConnector_ engine))) = CONNECTING →
     trace_of (run os (TcpConnector_ engine)) =
       trace_of (run os1 (TcpConnector_ engine)) ++ [EvStatus CANCELING; EvStatus CANCELED] ∧
     callbacks (trace_of (run (OCancel :: os2) (state_of (run os1 (TcpConnector_ engine))))) = []).
Proof.
  split; [apply run_callbacks_le|].
  intros os1 os2 -> Hc.
  destruct (cancel_connecting _ Hc) as (Ht & Hs & _).
  assert (trace_of (run (OCancel :: os2) (state_of (run os1 (TcpConnector_ engine))))
          = [EvStatus CANCELING; EvStatus CANCELED]) as Hrest.
  { rewrite run_cons. cbn [step]. rewrite run_inert by (rewrite Hs; done).
    unfold trace_of at 1. cbn [snd]. unfold trace_of at 2. cbn [snd].
    by rewrite Ht. }
  split; [|by rewrite Hrest].
  rewrite run_app. unfold trace_of at 1. cbn [snd]. by rewrite Hrest.
Qed.

(** C2: on a connector that a run has brought to CONNECTING, with a timeout
    and a readiness event both pending, the handler that runs first takes
    the connector to a terminal state and stops both watchers, and the
    handler that runs second finds the terminal status and does nothing; in
    either order the callback is called exactly once, with TimedOut when
    the timeout came first. *)
Theorem timeout_readiness_race (engine : ptr) (os : list Op) (probe : Probe) :
  mStatus (state_of (run os (TcpConnector_ engine))) = CONNECTING →
  ∃ cb,
    mConnectorCallback (state_of (run os (TcpConnector_ engine))) = Some cb ∧
    armed (state_of (run os (TcpConnector_ engine))) = (true, true) ∧
    (∀ c1, c1 = state_of (handleTimeoutEvent (state_of (run os (TcpConnector_ engine)))) →
       terminal (mStatus c1) = true ∧ armed c1 = (false, false) ∧
       handleChannelEvent probe c1 = (tt, c1, [])) ∧
    callbacks (trace_of (run [OTimeoutEvent; OChannelEvent probe]
                             (state_of (run os (TcpConnector_ engine)))))
      = [EvCallback cb sp_null TimedOut] ∧
    (∀ c2, c2 = state_of (handleChannelEvent probe (state_of (run os (TcpConnector_ engine)))) →
       terminal (mStatus c2) = true ∧ armed c2 = (false, false) ∧
       handleTimeoutEvent c2 = (tt, c2, [])) ∧
    callbacks (trace_of (run [OChannelEvent probe; OTimeoutEvent]
                             (state_of (run os (TcpConnector_ engine)))))
      = [match probe with
         | Completed conn => EvCallback cb conn Ok
         | Failed code => EvCallback cb sp_null code
         end].
Proof.
  intros Hc.
  destruct (run_connecting_ready os _ (constructed_connecting_ready engine) Hc)
    as [[cb Hcb] Harmed].
  set (c := state_of (run os (TcpConnector_ engine))) in *.
  destruct (handleTimeoutEvent_connecting c Hc) as (Ht & Hts & Hta).
  destruct (handleChannelEvent_connecting probe c Hc) as (Hr & Hrs & Hra).
  exists cb. split_and!; try done.
  - intros c1 ->. rewrite Hts. split_and!; [done..|].
    apply (handler_dropped (OChannelEvent probe)). by rewrite Hts.
  - rewrite run_cons. cbn [step]. unfold trace_of at 1. cbn [snd].
    rewrite (run_inert [_]) by (rewrite Hts; done).
    rewrite Ht, Hcb. done.
  - intros c2 ->. rewrite Hrs. split_and!; [by destruct probe|done|].
    apply (handler_dropped OTimeoutEvent). rewrite Hrs. by destruct probe.
  - rewrite run_cons. cbn [step]. unfold trace_of at 1. cbn [snd].
    rewrite (run_inert [_]) by (rewrite Hrs; by destruct probe).
    rewrite Hr, Hcb. by destruct probe.
Qed.

Lemma timeout_readiness_race_witness :
  mStatus (state_of (run [OConnect sp_null 80 7 3%Z] (TcpConnector_ 1))) = CONNECTING ∧
  callbacks (trace_of (run [OTimeoutEvent; OChannelEvent (Completed (SharedPtr_ 5 (Some 0)))]
                           (state_of (run [OConnect sp_null 80 7 3%Z] (TcpConnector_ 1)))))
    = [EvCallback 7 sp_null TimedOut].
Proof.
  split; [reflexivity|].
  destruct (timeout_readiness_race 1 [OConnect sp_null 80 7 3%Z]
              (Completed (SharedPtr_ 5 (Some 0))) eq_refl)
    as (cb & Hcb & _ & _ & Hrace & _).
  injection Hcb as <-. exact Hrace.
Defined.

(** C3: a connector is constructed IDLE; a status is one of the six
    enumerators; and on a connector in CONNECTED, CANCELED or ERROR no
    operation and no sequence of operations changes the status (they change
    nothing and emit nothing). *)
Theorem status_terminal_is_final (engine : ptr) (c : TcpConnector) :
  mStatus (TcpConnector_ engine) = IDLE ∧
  mStatus c ∈ [IDLE; CONNECTING; CONNECTED; CANCELING; CANCELED; ERROR] ∧
  (terminal (mStatus c) = true ↔ mStatus c ∈ [CONNECTED; CANCELED; ERROR]) ∧
  (terminal (mStatus c) = true →
   (∀ o, mStatus (state_of (step o c)) = mStatus c) ∧
   (∀ os, run os c = (tt, c, []))).
Proof.
  split_and!.
  - done.
  - rewrite !elem_of_cons. destruct (mStatus c); tauto.
  - rewrite !elem_of_cons, elem_of_nil. destruct (mStatus c); simpl; intuition congruence.
  - intros Ht. split.
    + intros o. by rewrite handler_dropped.
    + intros os. apply terminal_inert in Ht as [? ?]. by apply run_inert.
Qed.



(** C5: [cancel()] while CONNECTING assigns CANCELING and then CANCELED,
    leaves both watchers stopped and calls no callback; in any other state
    it is a no-op; so a second [cancel()] never does anything. *)
Theorem cancel_silent_and_idempotent (c : TcpConnector) :
  (mStatus c = CONNECTING →
   trace_of (cancel c) = [EvStatus CANCELING; EvStatus CANCELED] ∧
   mStatus (state_of (cancel c)) = CANCELED ∧
   armed (state_of (cancel c)) = (false, false)) ∧
  (mStatus c ≠ CONNECTING → cancel c = (tt, c, [])) ∧
  callbacks (trace_of (cancel c)) = [] ∧
  cancel (state_of (cancel c)) = (tt, state_of (cancel c), []).
Proof.
  split_and!.
  - apply cancel_connecting.
  - apply cancel_elsewhere.
  - destruct (decide (mStatus c = CONNECTING)) as [Hc|Hc].
    + by destruct (cancel_connecting c Hc) as (-> & _).
    + by rewrite cancel_elsewhere.
  - destruct (decide (mStatus c = CONNECTING)) as [Hc|Hc].
    + destruct (cancel_connecting c Hc) as (_ & Hs & _).
      apply cancel_elsewhere. by rewrite Hs.
    + rewrite (cancel_elsewhere c) by done. unfold state_of. cbn [fst snd].
      by apply cancel_elsewhere.
Qed.

(** Two runs, evaluated: a connect that times out, and a connect that is
    cancelled before any event. *)
Example run_timeout_then_ready :
  trace_of (run [OConnect sp_null 80 7 3%Z; OTimeoutEvent;
                 OChannelEvent (Completed (SharedPtr_ 5 (Some 0))); OCancel]
                (TcpConnector_ 1))
  = [EvStatus CONNECTING; EvStatus ERROR; EvCallback 7 sp_null TimedOut].
Proof. reflexivity. Qed.

Example run_cancel_then_events :
  trace_of (run [OConnect sp_null 80 7 3%Z; OCancel; OTimeoutEvent;
                 OChannelEvent (Completed (SharedPtr_ 5 (Some 0))); OCancel]
                (TcpConnector_ 1))
  = [EvStatus CONNECTING; EvStatus CANCELING; EvStatus CANCELED].
Proof. reflexivity. Qed.

(** *** The factory *)

Lemma empty_heap_ok : heap_ok empty_heap.
Proof. split; [done|intros a c Hc|intros b c Hc]; cbn in Hc; by rewrite lookup_empty in Hc. Qed.

Lemma heap_ok_fresh_object h :
  heap_ok h → objects h !! next_object h = None.
Proof.
  intros Hh. destruct (objects h !! next_object h) as [c|] eqn:Hc; [|done].
  apply (objects_below_next h Hh) in Hc. lia.
Qed.

(** What [create] builds: the new object, the handle and the control block. *)
Lemma create_result e h :
  create e h =
    (SharedPtr_ (next_object h) (Some (next_block (store h))),
     MkHeap
       (<[next_object h :=
            MkTcpConnector IDLE e
              (MkConnectInfo (EvWatcher false) (EvWatcher false) sp_null None sp_null)
              (WeakPtr_ (next_object h) (Some (next_block (store h)))) None]>
          (objects h))
       (next_object h + 1)
       (MkStore (<[next_block (store h) := SpCounted (next_object h) 1 1]> (blocks (store h)))
                (next_block (store h) + 1) (deleted (store h)))).
Proof.
  unfold create, new_TcpConnector, sp_from_raw, assign_mWeakThis, get,
    wp_from_shared, wp_release, sp_copy, sp_release, TcpConnector_, set_mWeakThis.
  cbn. rewrite lookup_insert_eq. cbn.
  rewrite (alter_insert_eq (M := gmap N)). cbn.
  rewrite (alter_insert_eq (M := gmap N)). cbn.
  rewrite lookup_insert_eq. cbn.
  by rewrite !insert_insert_eq.
Qed.

Lemma create_heap_ok e h : heap_ok h → heap_ok (create e h).2.
Proof.
  intros [Hn Ho Hb]. rewrite create_result. split; cbn.
  - unfold null in *. lia.
  - intros a c. destruct (decide (a = next_object h)) as [->|Ha].
    + intros _. lia.
    + rewrite lookup_insert_ne by done. intros Hc%Ho. lia.
  - intros b c. destruct (decide (b = next_block (store h))) as [->|Hb'].
    + intros _. lia.
    + rewrite lookup_insert_ne by done. intros Hc%Hb. lia.
Qed.

(** C6: [create(e)] returns an owning handle to a connector that did not
    exist before, whose [mWeakThis] designates that same connector through
    the handle's control block.  The handle is the
    only owner: with a copy of the weak self-reference held elsewhere (by
    an event registration), ending the handle deletes the connector, after
    which the copy is expired and locks to null. *)
Theorem create_shared_handle_weak_self (e : ptr) (h : Heap) :
  heap_ok h →
  ∃ c,
    get (create e h).1 ≠ null ∧
    objects h !! get (create e h).1 = None ∧
    objects (create e h).2 !! get (create e h).1 = Some c ∧
    wpx (mWeakThis c) = px (create e h).1 ∧
    wpn (mWeakThis c) = pn (create e h).1 ∧
    (wp_lock (mWeakThis c) (store (create e h).2)).1 = (create e h).1 ∧
    sp_use_count (create e h).1 (store (create e h).2) = 1%nat ∧
    (∀ a, a ≠ get (create e h).1 → objects (create e h).2 !! a = objects h !! a) ∧
    (∀ registered gone,
       registered = MkHeap (objects (create e h).2) (next_object (create e h).2)
                           (wp_copy (mWeakThis c) (store (create e h).2)) →
       gone = sp_destroy (create e h).1 registered →
       objects gone !! get (create e h).1 = None ∧
       deleted (store gone) = deleted (store h) ++ [get (create e h).1] ∧
       wp_expired (mWeakThis c) (store gone) = true ∧
       (wp_lock (mWeakThis c) (store gone)).1 = sp_null).
Proof.
  intros Hh. rewrite create_result. cbn [fst snd get px pn objects store next_object].
  eexists. split_and!.
  - apply (next_object_pos h Hh).
  - by apply heap_ok_fresh_object.
  - apply lookup_insert_eq.
  - done.
  - done.
  - unfold wp_lock, wp_expired, wp_use_count. cbn. by rewrite lookup_insert_eq.
  - unfold sp_use_count. cbn. by rewrite lookup_insert_eq.
  - intros a Ha. by rewrite lookup_insert_ne.
  - intros registered gone -> ->.
    set (a := next_object h). set (b := next_block (store h)).
    assert ((a =? null) = false) as Ha
      by (apply N.eqb_neq, (next_object_pos h Hh)).
    cbn [mWeakThis].
    erewrite wp_copy_block by apply lookup_insert_eq.
    cbn [managed use_count weak_count blocks next_block deleted].
    rewrite insert_insert_eq.
    unfold sp_destroy. cbn [objects store next_object get px].
    rewrite lookup_insert_eq. cbn [mWeakThis mConnectInfo connection poller].
    unfold sp_use_count. cbn [pn blocks]. rewrite lookup_insert_eq.
    cbn [from_option use_count]. rewrite bool_decide_eq_true_2 by done.
    erewrite sp_release_last by apply lookup_insert_eq.
    cbn [blocks next_block deleted]. rewrite insert_insert_eq.
    erewrite wp_release_shared by apply lookup_insert_eq.
    cbn [blocks next_block deleted]. rewrite insert_insert_eq.
    rewrite !sp_release_null. cbn [objects store deleted].
    unfold wp_lock.
    erewrite !wp_expired_block by apply lookup_insert_eq.
    cbn [use_count Nat.eqb fst]. unfold delete_obj. rewrite Ha.
    split_and!; [apply lookup_delete_eq|done..].
Qed.

Lemma create_shared_handle_weak_self_witness :
  heap_ok empty_heap ∧
  ∃ c, objects (create 9 empty_heap).2 !! get (create 9 empty_heap).1 = Some c ∧
       wpx (mWeakThis c) = px (create 9 empty_heap).1 ∧
       wpn (mWeakThis c) = pn (create 9 empty_heap).1 ∧
       sp_use_count (create 9 empty_heap).1 (store (create 9 empty_heap).2) = 1%nat.
Proof.
  split; [apply empty_heap_ok|].
  destruct (create_shared_handle_weak_self 9 empty_heap empty_heap_ok)
    as (c & _ & _ & Hc & Hx & Hn & _ & Hu & _).
  by exists c.
Defined.

(** The factory on the empty heap, evaluated. *)
Example create_on_empty_heap :
  (create 9 empty_heap).1 = SharedPtr_ 1 (Some 0) ∧
  (mWeakThis <$> objects (create 9 empty_heap).2 !! 1) = Some (WeakPtr_ 1 (Some 0)) ∧
  blocks (store (create 9 empty_heap).2) !! 0 = Some (SpCounted 1 1 1).
Proof. vm_compute. done. Qed.

End TcpConnectorFacts.

Module UnicodeUtilFacts.
Import UnicodeUtil.

Section Copy.
Variable dereference : list byte → option N.
Variable increment : list byte → option (list byte).
Variable wchar_of : N → Z.

(** [++it] moves on in the input. *)
Hypothesis increment_advances :
  ∀ first next, increment first = Some next → (length next < length first)%nat.

(** The loop appends to [output] what the iterator yields. *)
Lemma copy_code_points n first output :
  copy dereference increment wchar_of n first output =
  match code_points dereference increment n first with
  | Some (o, vs) => Some (o, output ++ map wchar_of vs)
  | None => None
  end.
Proof.
  revert first output. induction n as [|n IH]; intros first output; [done|].
  destruct first as [|c rest]; cbn [copy code_points].
  - by rewrite app_nil_r.
  - destruct (dereference (c :: rest)) as [v|]; [|by rewrite app_nil_r].
    destruct (increment (c :: rest)) as [next|]; [|done].
    rewrite IH. destruct (code_points dereference increment n next) as [[o vs]|]; [|done].
    cbn [map]. by rewrite <-app_assoc.
Qed.

(** The loop ends within as many iterations as the input has bytes. *)
Lemma code_points_ends n first :
  (length first < n)%nat →
  ∃ o vs, code_points dereference increment n first = Some (o, vs).
Proof.
  revert first. induction n as [|n IH]; intros first Hn; [lia|].
  destruct first as [|c rest]; cbn [code_points]; [by eauto|].
  destruct (dereference (c :: rest)) as [v|]; [|by eauto].
  destruct (increment (c :: rest)) as [next|] eqn:Hnext; [|by eauto].
  apply increment_advances in Hnext.
  destruct (IH next) as (o & vs & ->); [lia|]. by eauto.
Qed.

(** C10: [utf8_to_ucs4] appends.  Whatever the input and whatever the
    output holds, the call ends, and the output afterwards is its prior
    content followed by the code points decoded from the input (up to the
    point of an exception, if the iterator threw); with an empty output it
    is exactly those code points. *)
Theorem utf8_to_ucs4_appends (input : list byte) (output : list Z) :
  ∃ o vs,
    decode dereference increment input = Some (o, vs) ∧
    utf8_to_ucs4 dereference increment wchar_of input output
      = Some (o, output ++ map wchar_of vs) ∧
    utf8_to_ucs4 dereference increment wchar_of input []
      = Some (o, map wchar_of vs).
Proof.
  destruct (code_points_ends (S (length input)) input) as (o & vs & Hd); [lia|].
  exists o, vs. unfold utf8_to_ucs4, decode.
  by rewrite !copy_code_points, Hd.
Qed.

End Copy.

(** Boost's iterator advances by the length of the sequence it stands on. *)
Lemma utf8_byte_count_pos c : (1 ≤ utf8_byte_count c)%nat.
Proof.
  unfold utf8_byte_count, leading_ones.
  repeat (destruct (negb (N.testbit c _)); [simpl; lia|]). simpl. lia.
Qed.

Lemma u8_increment_advances first next :
  u8_increment first = Some next → (length next < length first)%nat.
Proof.
  destruct first as [|c rest]; [done|]. unfold u8_increment.
  destruct (is_continuation (Byte.to_N c)); [done|]. intros [= <-].
  pose proof (utf8_byte_count_pos (Byte.to_N c)).
  rewrite length_drop. simpl. lia.
Qed.

(** The theorem for Boost's iterator and a 32-bit [wchar_t], on the bytes
    of "a", U+00E9, U+20AC and U+1F600 appended to an output that holds
    one character already. *)
Lemma utf8_to_ucs4_appends_witness :
  (∀ first next, u8_increment first = Some next → (length next < length first)%nat) ∧
  utf8_to_ucs4 u8_dereference u8_increment wchar32_of
    [x61; xc3; xa9; xe2; x82; xac; xf0; x9f; x98; x80] [42%Z]
  = Some (Returned, [42; 97; 233; 8364; 128512]%Z).
Proof.
  split; [exact u8_increment_advances|].
  destruct (utf8_to_ucs4_appends u8_dereference u8_increment wchar32_of
              u8_increment_advances
              [x61; xc3; xa9; xe2; x82; xac; xf0; x9f; x98; x80] [42%Z])
    as (o & vs & Hd & Happ & _).
  vm_compute in Hd. injection Hd as <- <-. exact Happ.
Defined.

(** An input that is not UTF-8: the iterator throws at the bad byte, and
    the output keeps its content and what was decoded before. *)
Example utf8_to_ucs4_invalid :
  utf8_to_ucs4 u8_dereference u8_increment wchar32_of [x61; x80; x62] [42%Z]
  = Some (Thrown, [42; 97]%Z).
Proof. reflexivity. Qed.

Example utf8_to_ucs4_overlong :
  utf8_to_ucs4 u8_dereference u8_increment wchar32_of [xc0; x80] []
  = Some (Thrown, []).
Proof. reflexivity. Qed.

End UnicodeUtilFacts.

Module TemplateTricksFacts.
Import TemplateTricks.
Local Open Scope Z_scope.

(** Evaluates the powers of two of the bounds. *)
Ltac eval_bounds :=
  unfold in_range, to_type, min_of, max_of in *; cbn [bits signed] in *;
  repeat match goal with
  | |- context [2 ^ ?n] =>
      let v := eval vm_compute in (2 ^ n) in change (2 ^ n) with v
  | H : context [2 ^ ?n] |- _ =>
      let v := eval vm_compute in (2 ^ n) in change (2 ^ n) with v in H
  end.

Lemma to_type_in_range t z : in_range t z → to_type t z = z.
Proof. destruct t; intros Hz; eval_bounds; rewrite Z.mod_small; lia. Qed.

Lemma max_of_in_range t : in_range t (max_of t).
Proof. destruct t; eval_bounds; lia. Qed.

Lemma pre_increment_below t i :
  in_range t i → i < max_of t → pre_increment t i = Some (i + 1).
Proof.
  intros Hi Hlt. unfold pre_increment.
  assert (in_range t (i + 1)) as Hr by (unfold in_range in *; lia).
  rewrite (to_type_in_range t (i + 1) Hr).
  destruct (bits t <? 32); [done|]. destruct (signed t); [|done].
  by rewrite (proj2 (Z.ltb_lt _ _)).
Qed.

Section Loop.
Context {S : Type}.
Implicit Types (body : Z → S → S) (s : S).

(** The loop over a stretch of values that does not contain the end. *)
Lemma foreach_loop_segment t k fuel i e body s :
  in_range t i → i + Z.of_nat k ≤ max_of t →
  (∀ j, i ≤ j < i + Z.of_nat k → j ≠ e) →
  foreach_loop t (k + fuel) i e body s =
  foreach_loop t fuel (i + Z.of_nat k) e body
    (fold_left (λ s j, body j s) (seqZ i (Z.of_nat k)) s).
Proof.
  revert i s. induction k as [|k IH]; intros i s Hi Hmax Hne.
  - cbn [Nat.add]. by rewrite Z.add_0_r.
  - cbn [Nat.add foreach_loop].
    rewrite (proj2 (Z.eqb_neq i e)) by (apply Hne; lia).
    rewrite pre_increment_below by (done || lia).
    rewrite IH; [|unfold in_range in *; lia|lia|intros j Hj; apply Hne; lia].
    rewrite (seqZ_cons i) by lia. cbn [fold_left].
    replace (Z.succ i) with (i + 1) by lia.
    replace (Z.pred (Z.of_nat (Datatypes.S k))) with (Z.of_nat k) by lia.
    f_equal. lia.
Qed.

Lemma foreach_loop_end t fuel e body s :
  foreach_loop t (Datatypes.S fuel) e e body s = Done s.
Proof. cbn. by rewrite Z.eqb_refl. Qed.

Lemma zero_in_range t : in_range t 0.
Proof. destruct t; eval_bounds; lia. Qed.

(** X1: [foreach(i, a)] with [a >= 0] runs the body for 0, 1, ..., a-1, in
    this order, and not at all for [a = 0]; this holds for each of the
    eight integer types. *)
Theorem foreach_counts_up t (a : Z) (fuel : nat) body s :
  in_range t a → 0 ≤ a → (Z.to_nat a < fuel)%nat →
  foreach t fuel a body s = Done (fold_left (λ s j, body j s) (seqZ 0 a) s).
Proof.
  intros Ha Hpos Hfuel. unfold foreach, beginof, endof.
  replace fuel with (Z.to_nat a + Datatypes.S (fuel - Z.to_nat a - 1))%nat by lia.
  rewrite foreach_loop_segment;
    [|apply zero_in_range|unfold in_range in Ha; lia|intros j Hj; lia].
  rewrite Z2Nat.id by done. rewrite Z.add_0_l. apply foreach_loop_end.
Qed.

(** X2: The types narrower than [int] wrap on [++i]: with a negative bound the
    loop runs the body for 0 up to the largest value of the type and then
    from the smallest value up to a-1, [2 ^ bits + a] times in all. *)
Theorem foreach_negative_narrow_wraps t (a : Z) (fuel : nat) body s :
  signed t = true → bits t < 32 →
  in_range t a → a < 0 → (Z.to_nat (2 ^ bits t + a) < fuel)%nat →
  foreach t fuel a body s =
  Done (fold_left (λ s j, body j s)
          (seqZ 0 (max_of t + 1) ++ seqZ (min_of t) (a - min_of t)) s).
Proof.
  intros Hs Hb Ha Hneg Hfuel. unfold foreach, beginof, endof.
  assert (0 ≤ max_of t ∧ min_of t = - (max_of t + 1) ∧ 2 ^ bits t = 2 * (max_of t + 1) ∧
          pre_increment t (max_of t) = Some (min_of t)) as (Hmax & Hmin & Hpow & Hwrap).
  { destruct t; try discriminate Hs; try (cbn in Hb; lia);
      unfold pre_increment; eval_bounds; split_and!; try lia; reflexivity. }
  assert (in_range t (min_of t)) as Hminr by (unfold in_range in *; lia).
  replace fuel with
    (Z.to_nat (max_of t) +
     Datatypes.S (Z.to_nat (a - min_of t) +
                  Datatypes.S (fuel - Z.to_nat (2 ^ bits t + a) - 1)))%nat
    by (unfold in_range in Ha; lia).
  rewrite foreach_loop_segment;
    [|apply zero_in_range|lia|intros j Hj; lia].
  rewrite Z2Nat.id by done. rewrite Z.add_0_l. cbn [foreach_loop].
  rewrite (proj2 (Z.eqb_neq (max_of t) a)) by lia. rewrite Hwrap.
  rewrite foreach_loop_segment;
    [|done|unfold in_range in Ha; lia|intros j Hj; lia].
  rewrite Z2Nat.id by (unfold in_range in Ha; lia).
  replace (min_of t + (a - min_of t)) with a by lia.
  rewrite foreach_loop_end. f_equal.
  rewrite fold_left_app. f_equal.
  rewrite (seqZ_app 0 (max_of t) 1) by lia. by rewrite fold_left_app.
Qed.


End Loop.

Lemma foreach_counts_up_witness :
  in_range uint8 3 ∧ 0 ≤ 3 ∧ (Z.to_nat 3 < 4)%nat ∧
  foreach uint8 4 3 (λ i s, s ++ [i]) [] = Done [0; 1; 2].
Proof.
  assert (in_range uint8 3) as Hr by (eval_bounds; lia).
  split_and!; [exact Hr|lia|lia|].
  apply (foreach_counts_up uint8 3 4 (λ i s, s ++ [i]) [] Hr); lia.
Defined.

Lemma foreach_negative_narrow_wraps_witness :
  signed int8 = true ∧ bits int8 < 32 ∧ in_range int8 (-2) ∧ -2 < 0 ∧
  (Z.to_nat (2 ^ bits int8 + -2) < 255)%nat ∧
  foreach int8 255 (-2) (λ i n, n + 1) 0 = Done 254.
Proof.
  assert (in_range int8 (-2)) as Hr by (eval_bounds; lia).
  assert (Z.to_nat (2 ^ bits int8 + -2) < 255)%nat as Hf by (eval_bounds; lia).
  split_and!; [reflexivity|reflexivity|exact Hr|lia|exact Hf|].
  rewrite (foreach_negative_narrow_wraps int8 (-2) 255 (λ i n, n + 1) 0
             eq_refl eq_refl Hr eq_refl Hf).
  reflexivity.
Defined.


Section Sequence.
Context {A S : Type}.
Implicit Types (v : list A) (body : A → S → S) (s : S).
Local Open Scope nat_scope.

Lemma seq_foreach_loop_from fuel v i body s :
  i ≤ length v → length v - i < fuel →
  seq_foreach_loop fuel v i (length v) body s =
  Done (fold_left (λ s x, body x s) (drop i v) s).
Proof.
  revert i s. induction fuel as [|fuel IH]; intros i s Hi Hfuel; [lia|].
  cbn [seq_foreach_loop]. case_decide as Hend.
  - subst i. by rewrite drop_all.
  - destruct (lookup_lt_is_Some_2 v i) as [x Hx]; [lia|].
    rewrite Hx, IH by lia. by rewrite (drop_S v x i Hx).
Qed.

(** X4: [foreach(i, v)] over a vector, list or array runs the body on every
    element once, first to last, and never reads the end position; on an
    empty sequence the body does not run. *)
Theorem seq_foreach_visits_in_order (fuel : nat) v body s :
  length v < fuel →
  seq_foreach fuel v body s = Done (fold_left (λ s x, body x s) v s).
Proof.
  intros Hfuel. unfold seq_foreach, seq_beginof, seq_endof.
  rewrite seq_foreach_loop_from by lia. by rewrite drop_0.
Qed.

Lemma r_foreach_loop_from fuel v k body s :
  k ≤ length v → k < fuel →
  r_foreach_loop fuel v (ReverseIterator k) (r_endof v) body s =
  Done (fold_left (λ s x, body x s) (rev (take k v)) s).
Proof.
  revert k s. induction fuel as [|fuel IH]; intros k s Hk Hfuel; [lia|].
  cbn [r_foreach_loop base r_endof]. destruct k as [|k].
  - by rewrite decide_True by done.
  - rewrite decide_False by done.
    unfold r_dereference, r_increment. cbn [base].
    destruct (lookup_lt_is_Some_2 v k) as [x Hx]; [lia|].
    rewrite Hx, IH by lia.
    rewrite (take_S_r v k x Hx), rev_app_distr. done.
Qed.

(** X5: [r_foreach(i, v)] runs the body on every element once, last to first:
    it does what [foreach] does on the reversed sequence. *)
Theorem r_foreach_visits_in_reverse (fuel : nat) v body s :
  length v < fuel →
  r_foreach fuel v body s = Done (fold_left (λ s x, body x s) (rev v) s) ∧
  r_foreach fuel v body s = seq_foreach fuel (rev v) body s.
Proof.
  intros Hfuel.
  assert (r_foreach fuel v body s = Done (fold_left (λ s x, body x s) (rev v) s)) as Hr.
  { unfold r_foreach, r_beginof. rewrite r_foreach_loop_from by lia.
    by rewrite firstn_all. }
  split; [done|]. rewrite Hr. unfold seq_foreach, seq_beginof, seq_endof.
  rewrite seq_foreach_loop_from by (rewrite ?length_rev; lia). by rewrite drop_0.
Qed.

End Sequence.

Lemma seq_foreach_visits_in_order_witness :
  (length [10; 20; 30] < 4)%nat ∧
  seq_foreach 4 [10; 20; 30] (λ x s, s ++ [x]) [] = Done [10; 20; 30].
Proof.
  split; [simpl; lia|].
  apply (seq_foreach_visits_in_order 4 [10; 20; 30] (λ x s, s ++ [x]) []). simpl. lia.
Defined.

Lemma r_foreach_visits_in_reverse_witness :
  (length [10; 20; 30] < 4)%nat ∧
  r_foreach 4 [10; 20; 30] (λ x s, s ++ [x]) [] = Done [30; 20; 10].
Proof.
  split; [simpl; lia|].
  apply (r_foreach_visits_in_reverse 4 [10; 20; 30] (λ x s, s ++ [x]) []). simpl. lia.
Defined.

End TemplateTricksFacts.

Module ContextHubOwnershipFacts.
Import SharedPtr SharedPtrFacts ContextHub ContextHubFacts ContextHubOwnership.

(** The store after a temporary copy of an owned pointer has come and gone. *)
Lemma sp_copy_release_owned st s :
  slot_owned st s → sp_release s (sp_copy s st) = st.
Proof.
  unfold slot_owned, sp_copy, sp_release. destruct (pn s) as [b|]; [|done].
  intros Hb. destruct st as [bs nb del]. cbn in *.
  rewrite lookup_alter_eq, Hb. cbn. f_equal.
  apply map_eq. intros i. destruct (decide (i = b)) as [->|Hi].
  - by rewrite lookup_insert_eq.
  - by rewrite lookup_insert_ne, lookup_alter_ne.
Qed.

(** The store after an owned pointer has ended: its block is gone and its
    object is deleted. *)
Lemma sp_release_owned st s :
  slot_owned st s →
  sp_release s st =
  MkStore (match pn s with Some b => delete b (blocks st) | None => blocks st end)
          (next_block st) (delete_obj (px s) (deleted st)).
Proof.
  unfold slot_owned, sp_release. destruct (pn s) as [b|].
  - intros ->. done.
  - intros ->. by destruct st.
Qed.

Section Hub.
Context {TypeId : Type} `{Countable TypeId}.
Implicit Types (T U : TypeId) (w : World TypeId) (this : N) (p : ptr).

Lemma refContext_owned this T w : owned w → owned (refContext this T w).2.
Proof.
  intros [Ho Hd Hb].
  destruct (refContext_post this T w) as (k & _ & _ & _ & _ & Hheap & Hat & _).
  split.
  - intros a j. rewrite Hheap, Hat. apply Ho.
  - intros a j a' j' b. rewrite !Hat. apply Hd.
  - rewrite Hheap. apply Hb.
Qed.

Lemma get_heap this T w : owned w → heap (get this T w).2 = heap w.
Proof.
  intros Hw. pose proof (refContext_owned this T w Hw) as [Ho _ _].
  destruct (refContext_post this T w) as (k & _ & _ & _ & _ & Hheap & _).
  unfold get. destruct (refContext this T w) as [i w1]. cbn [fst snd heap] in *.
  by rewrite sp_copy_release_owned, Hheap.
Qed.

(** The store after [set<T>(p)]: one new block for [p], and the slot's
    old pointer ended. *)
Lemma set_heap this T p w :
  owned w →
  heap (set this T p w) =
  MkStore
    (<[next_block (heap w) := SpCounted p 1 0]>
       (match pn (at_ (objects_of this w) (refContext this T w).1) with
        | Some b => delete b (blocks (heap w))
        | None => blocks (heap w)
        end))
    (next_block (heap w) + 1)
    (delete_obj (px (at_ (objects_of this w) (refContext this T w).1)) (deleted (heap w))).
Proof.
  intros Hw. pose proof (refContext_owned this T w Hw) as [Ho _ Hb].
  destruct (refContext_post this T w) as (k & _ & _ & _ & _ & Hheap & Hat & _).
  unfold set, sp_from_raw. destruct (refContext this T w) as [i w1].
  cbn [fst snd heap] in *. rewrite Hheap in *. rewrite Hat in *.
  specialize (Ho this i). rewrite Hat in Ho.
  set (old := at_ (objects_of this w) i) in *.
  set (nb := next_block (heap w)) in *.
  assert (slot_owned
            (MkStore (<[nb := SpCounted p 2 0]> (blocks (heap w))) (nb + 1) (deleted (heap w)))
            old) as Hold.
  { unfold slot_owned in *. destruct (pn old) as [b|]; [|done]. cbn [blocks].
    rewrite lookup_insert_ne; [done|]. apply Hb in Ho. unfold nb. lia. }
  unfold sp_copy at 1. cbn [pn blocks next_block deleted].
  rewrite (alter_insert_eq (M := gmap N)). cbn [managed use_count weak_count].
  rewrite (sp_release_owned _ old Hold). cbn [blocks next_block deleted].
  unfold sp_release. cbn [pn blocks next_block deleted].
  assert ((match pn old with
           | Some b => delete b (<[nb := SpCounted p 2 0]> (blocks (heap w)))
           | None => <[nb := SpCounted p 2 0]> (blocks (heap w))
           end) !! nb = Some (SpCounted p 2 0)) as Hnb.
  { destruct (pn old) as [b|] eqn:Hpn; [|by rewrite lookup_insert_eq].
    rewrite lookup_delete_ne; [by rewrite lookup_insert_eq|].
    unfold slot_owned in Ho. rewrite Hpn in Ho. apply Hb in Ho. unfold nb. lia. }
  rewrite Hnb. cbn [use_count weak_count managed]. f_equal.
  destruct (pn old) as [b|] eqn:Hpn.
  - apply map_eq. intros j. destruct (decide (j = nb)) as [->|Hj].
    + by rewrite !lookup_insert_eq.
    + rewrite !lookup_insert_ne by done. destruct (decide (j = b)) as [->|Hjb].
      * by rewrite !lookup_delete_eq.
      * by rewrite !lookup_delete_ne, lookup_insert_ne.
  - by rewrite insert_insert_eq.
Qed.

(** The store after [reset<T>()]: the slot's pointer ended. *)
Lemma reset_heap this T w :
  owned w →
  heap (reset this T w) =
  MkStore
    (match pn (at_ (objects_of this w) (refContext this T w).1) with
     | Some b => delete b (blocks (heap w))
     | None => blocks (heap w)
     end)
    (next_block (heap w))
    (delete_obj (px (at_ (objects_of this w) (refContext this T w).1)) (deleted (heap w))).
Proof.
  intros Hw. pose proof (refContext_owned this T w Hw) as [Ho _ _].
  destruct (refContext_post this T w) as (k & _ & _ & _ & _ & Hheap & Hat & _).
  unfold reset. destruct (refContext this T w) as [i w1].
  cbn [fst snd heap] in *. specialize (Ho this i).
  rewrite (sp_release_owned _ _ Ho). by rewrite Hheap, Hat.
Qed.

(** The slots after a call: [set] and [reset] write one slot of one hub,
    [get] writes none. *)
Lemma set_slot this T p w a j :
  at_ (objects_of a (set this T p w)) j =
  if decide (a = this ∧ j = (refContext this T w).1)
  then SharedPtr_ p (Some (next_block (heap w)))
  else at_ (objects_of a w) j.
Proof.
  destruct (refContext_post this T w) as (k & _ & _ & Hlt & _ & Hheap & Hat & _).
  unfold set, sp_from_raw. destruct (refContext this T w) as [i w1].
  cbn [fst snd] in *. rewrite objects_of_insert, Hheap.
  destruct (decide (this = a)) as [<-|Ha].
  - destruct (decide (j = i)) as [->|Hj].
    + rewrite decide_True by done. by rewrite at_insert_eq.
    + rewrite decide_False by tauto. rewrite at_insert_ne by done. apply Hat.
  - rewrite decide_False by (intros [? _]; congruence). apply Hat.
Qed.

Lemma reset_slot this T w a j :
  at_ (objects_of a (reset this T w)) j =
  if decide (a = this ∧ j = (refContext this T w).1)
  then sp_null
  else at_ (objects_of a w) j.
Proof.
  destruct (refContext_post this T w) as (k & _ & _ & Hlt & _ & Hheap & Hat & _).
  unfold reset. destruct (refContext this T w) as [i w1].
  cbn [fst snd] in *. rewrite objects_of_insert.
  destruct (decide (this = a)) as [<-|Ha].
  - destruct (decide (j = i)) as [->|Hj].
    + rewrite decide_True by done. by rewrite at_insert_eq.
    + rewrite decide_False by tauto. rewrite at_insert_ne by done. apply Hat.
  - rewrite decide_False by (intros [? _]; congruence). apply Hat.
Qed.

Lemma get_slot this T w a j :
  at_ (objects_of a (get this T w).2) j = at_ (objects_of a w) j.
Proof.
  destruct (refContext_post this T w) as (k & _ & _ & _ & _ & _ & Hat & _).
  unfold get. destruct (refContext this T w) as [i w1]. apply Hat.
Qed.

(** What a slot other than the written one needs from the new store. *)
Lemma slot_owned_frame st st' s :
  slot_owned st s →
  (∀ b, pn s = Some b → blocks st' !! b = blocks st !! b) →
  slot_owned st' s.
Proof.
  unfold slot_owned. destruct (pn s) as [b|]; [|done].
  intros Hs Hsame. by rewrite Hsame.
Qed.

Lemma set_owned this T p w : owned w → owned (set this T p w).
Proof.
  intros Hw. pose proof Hw as [Ho Hd Hb].
  set (i := (refContext this T w).1).
  assert (∀ b, pn (at_ (objects_of this w) i) = Some b → b < next_block (heap w)) as Hold.
  { intros b Hpn. specialize (Ho this i). unfold slot_owned in Ho.
    rewrite Hpn in Ho. by apply Hb in Ho. }
  split.
  - intros a j. rewrite set_slot, set_heap by done. fold i. case_decide as Hij.
    + unfold slot_owned. cbn. by rewrite lookup_insert_eq.
    + apply (slot_owned_frame (heap w)); [apply Ho|]. intros b Hpn. cbn [blocks].
      assert (b < next_block (heap w)) as Hlt.
      { specialize (Ho a j). unfold slot_owned in Ho. rewrite Hpn in Ho. by apply Hb in Ho. }
      rewrite lookup_insert_ne by lia.
      destruct (pn (at_ (objects_of this w) i)) as [b'|] eqn:Hpn'; [|done].
      rewrite lookup_delete_ne; [done|]. intros ->.
      destruct (Hd _ _ _ _ _ Hpn Hpn') as [-> ->]. tauto.
  - intros a j a' j' b. rewrite !set_slot. fold i.
    do 2 case_decide; cbn [pn].
    + intros _ _. destruct_and!. by subst.
    + intros [= <-] Hpn. specialize (Ho a' j'). unfold slot_owned in Ho.
      rewrite Hpn in Ho. apply Hb in Ho. lia.
    + intros Hpn [= <-]. specialize (Ho a j). unfold slot_owned in Ho.
      rewrite Hpn in Ho. apply Hb in Ho. lia.
    + apply Hd.
  - intros b c. rewrite set_heap by done. cbn [blocks next_block]. fold i.
    destruct (decide (b = next_block (heap w))) as [->|Hne]; [lia|].
    rewrite lookup_insert_ne by done.
    destruct (pn (at_ (objects_of this w) i)) as [b'|].
    + intros [_ Hc%Hb]%lookup_delete_Some. lia.
    + intros Hc%Hb. lia.
Qed.

Lemma reset_owned this T w : owned w → owned (reset this T w).
Proof.
  intros Hw. pose proof Hw as [Ho Hd Hb].
  set (i := (refContext this T w).1).
  split.
  - intros a j. rewrite reset_slot, reset_heap by done. fold i. case_decide as Hij.
    + done.
    + apply (slot_owned_frame (heap w)); [apply Ho|]. intros b Hpn. cbn [blocks].
      destruct (pn (at_ (objects_of this w) i)) as [b'|] eqn:Hpn'; [|done].
      rewrite lookup_delete_ne; [done|]. intros ->.
      destruct (Hd _ _ _ _ _ Hpn Hpn') as [-> ->]. tauto.
  - intros a j a' j' b. rewrite !reset_slot. fold i.
    do 2 case_decide; cbn [pn sp_null]; try done. apply Hd.
  - intros b c. rewrite reset_heap by done. cbn [blocks next_block]. fold i.
    destruct (pn (at_ (objects_of this w) i)) as [b'|].
    + intros [_ Hc%Hb]%lookup_delete_Some. lia.
    + apply Hb.
Qed.

Lemma get_owned this T w : owned w → owned (get this T w).2.
Proof.
  intros Hw. pose proof Hw as [Ho Hd Hb]. split.
  - intros a j. rewrite get_slot, get_heap by done. apply Ho.
  - intros a j a' j' b. rewrite !get_slot. apply Hd.
  - rewrite get_heap by done. apply Hb.
Qed.

Lemma exec_owned c w : owned w → owned (exec c w).
Proof.
  destruct c; cbn [exec]; auto using set_owned, reset_owned, get_owned.
Qed.

Lemma run_owned cs w : owned w → owned (run cs w).
Proof.
  revert w. induction cs as [|c cs IH]; intros w Hw; [done|].
  cbn. apply IH. by apply exec_owned.
Qed.

Lemma initial_owned : owned (initial (TypeId := TypeId)).
Proof. by split. Qed.

(** X7: [set<T>(p)] takes the place of what [get<T>()] returned before: that
    object, when there was one, is deleted, and nothing else is. *)
Theorem set_deletes_previous this T p w :
  owned w →
  deleted (heap (set this T p w)) = delete_obj (get this T w).1 (deleted (heap w)).
Proof. intros Hw. by rewrite set_heap, get_value. Qed.

(** The index [refContext<T>()] returns is the same after a call on [T]. *)
Lemma refContext_fst this T w :
  (refContext this T w).1 =
  N.to_nat (match index w !! T with Some k => k | None => msContextIndexer w end).
Proof. unfold refContext, static_index. by destruct (index w !! T). Qed.

Lemma refContext_fst_again this T w w' :
  index w' = index (refContext this T w).2 →
  (refContext this T w').1 = (refContext this T w).1.
Proof.
  intros Hidx. rewrite (refContext_fst this T w'), Hidx.
  destruct (refContext_post this T w) as (k & -> & -> & _). done.
Qed.

Lemma set_index this T p w : index (set this T p w) = index (refContext this T w).2.
Proof. unfold set, sp_from_raw. by destruct (refContext this T w). Qed.

Lemma reset_index this T w : index (reset this T w) = index (refContext this T w).2.
Proof. unfold reset. by destruct (refContext this T w). Qed.

(** X8: [reset<T>()] deletes what [get<T>()] returned before, when there was
    an object, and a second [reset<T>()] finds nothing to delete. *)
Theorem reset_deletes_once this T w :
  owned w →
  deleted (heap (reset this T w)) = delete_obj (get this T w).1 (deleted (heap w)) ∧
  heap (reset this T (reset this T w)) = heap (reset this T w).
Proof.
  intros Hw. split; [by rewrite reset_heap, get_value|].
  rewrite (reset_heap this T (reset this T w)) by by apply reset_owned.
  rewrite (refContext_fst_again this T w) by apply reset_index.
  rewrite reset_slot, decide_True by done. cbn [pn px sp_null].
  by destruct (heap (reset this T w)).
Qed.

(** X9: Handing the same object to a slot twice: the second [set] deletes it,
    and the hub goes on returning the deleted object. *)
Theorem set_same_object_twice this T p w :
  owned w → p ≠ null →
  (get this T (set this T p (set this T p w))).1 = p ∧
  p ∈ deleted (heap (set this T p (set this T p w))).
Proof.
  intros Hw Hp. split; [apply get_set|].
  rewrite set_heap, <-get_value by by apply set_owned.
  cbn [deleted]. rewrite get_set. unfold delete_obj.
  rewrite (proj2 (N.eqb_neq p null)) by done.
  apply elem_of_app. right. apply list_elem_of_here.
Qed.

(** X6: [get<T>()] takes no part in ownership: the store (objects deleted,
    reference counts) and every slot of every hub are as before. *)
Theorem get_keeps_store this T w :
  owned w →
  heap (get this T w).2 = heap w ∧
  ∀ a j, at_ (objects_of a (get this T w).2) j = at_ (objects_of a w) j.
Proof. intros Hw. split; [by apply get_heap|]. intros a j. apply get_slot. Qed.

Lemma elem_of_delete_obj q x log :
  q ∈ delete_obj x log ↔ q ∈ log ∨ (x ≠ null ∧ q = x).
Proof.
  unfold delete_obj. destruct (x =? null) eqn:Hx.
  - apply N.eqb_eq in Hx. split; [by left|]. by intros [?|[? _]].
  - apply N.eqb_neq in Hx. rewrite elem_of_app, list_elem_of_singleton.
    split; (intros [?|?]; [by left|right]); [by subst|tauto].
Qed.

Lemma NoDup_delete_obj x log :
  NoDup log → (x ≠ null → x ∉ log) → NoDup (delete_obj x log).
Proof.
  intros Hnd Hx. unfold delete_obj. destruct (x =? null) eqn:Hx0; [done|].
  apply N.eqb_neq in Hx0. apply NoDup_app. split_and!; [done| |apply NoDup_singleton].
  intros q Hq ->%list_elem_of_singleton. by apply Hx.
Qed.

(** Ending the pointer of one slot keeps the rest sound. *)
Lemma sound_write this i new w w' P P' :
  sound w P →
  owned w' →
  (∀ a j, at_ (objects_of a w') j =
          if decide (a = this ∧ j = i) then new else at_ (objects_of a w) j) →
  deleted (heap w') = delete_obj (px (at_ (objects_of this w) i)) (deleted (heap w)) →
  (∀ q, q ∈ P → q ∈ P') →
  (px new ≠ null → px new ∈ P' ∧ px new ∉ P) →
  sound w' P'.
Proof.
  intros [Ho Hnd Hdg Hlive Hun] Ho' Hslot Hdel HP Hnew.
  set (old := px (at_ (objects_of this w) i)) in *.
  split; [done|..].
  - rewrite Hdel. apply NoDup_delete_obj; [done|]. intros Hold. by apply Hlive.
  - intros q. rewrite Hdel, elem_of_delete_obj. intros [Hq|[Hold ->]].
    + by apply HP, Hdg.
    + by apply HP, Hlive.
  - intros a j. rewrite Hslot, Hdel. case_decide as Hij.
    + intros Hp. destruct (Hnew Hp) as [HinP' HnotP]. split; [done|].
      rewrite elem_of_delete_obj. intros [Hq|[Hold Heq]].
      * by apply HnotP, Hdg.
      * apply HnotP. rewrite Heq. by apply Hlive.
    + intros Hq. destruct (Hlive a j Hq) as [HinP Hnotdel]. split; [by apply HP|].
      rewrite elem_of_delete_obj. intros [?|[Hold Heq]]; [done|].
      destruct (Hun a j this i Hq Heq) as [-> ->]. tauto.
  - intros a j a' j'. rewrite !Hslot. do 2 case_decide.
    + intros _ _. destruct_and!. by subst.
    + intros Hp Heq. destruct (Hnew Hp) as [_ HnotP]. exfalso. apply HnotP.
      rewrite Heq. apply Hlive. by rewrite <-Heq.
    + intros Hq Heq. assert (px new ≠ null) as Hp by by rewrite <-Heq.
      destruct (Hnew Hp) as [_ HnotP]. exfalso. apply HnotP.
      rewrite <-Heq. by apply Hlive.
    + apply Hun.
Qed.

Lemma exec_sound c w P :
  sound w P → (∀ q, q ∈ handed c → q ∉ P) → sound (exec c w) (handed c ++ P).
Proof.
  intros Hs Hfresh. pose proof (sound_owned w P Hs) as Hw.
  destruct c as [this T p|this T|this T]; cbn [exec].
  - apply (sound_write this (refContext this T w).1
             (SharedPtr_ p (Some (next_block (heap w)))) w _ P); try done.
    + by apply set_owned.
    + intros a j. apply set_slot.
    + by rewrite set_heap.
    + intros q Hq. apply elem_of_app. by right.
    + cbn [px]. intros Hp. unfold handed in *.
      rewrite (proj2 (N.eqb_neq p null)) in * by done.
      split; [apply elem_of_app; left; apply list_elem_of_here|].
      apply Hfresh, list_elem_of_here.
  - destruct Hs as [Ho Hnd Hdg Hlive Hun]. cbn.
    split; [by apply get_owned|rewrite get_heap by done; done|
            rewrite get_heap by done; done|..].
    + intros a j. rewrite get_slot, get_heap by done. apply Hlive.
    + intros a j a' j'. rewrite !get_slot. apply Hun.
  - apply (sound_write this (refContext this T w).1 sp_null w _ P); try done.
    + by apply reset_owned.
    + intros a j. apply reset_slot.
    + by rewrite reset_heap.
Qed.

Lemma run_sound cs w P :
  sound w P → NoDup (given cs) → (∀ q, q ∈ given cs → q ∉ P) →
  ∃ P', sound (run cs w) P'.
Proof.
  revert w P. induction cs as [|c cs IH]; intros w P Hs Hnd Hfresh; [by exists P|].
  change (given (c :: cs)) with (handed c ++ given cs) in *.
  apply NoDup_app in Hnd as (Hndc & Hdisj & Hndcs).
  change (run (c :: cs) w) with (run cs (exec c w)). apply (IH _ (handed c ++ P)).
  - apply exec_sound; [done|]. intros q Hq. apply Hfresh, elem_of_app. by left.
  - done.
  - intros q Hq [Hc|HP]%elem_of_app.
    + by apply (Hdisj q).
    + apply (Hfresh q); [apply elem_of_app; by right|done].
Qed.

Lemma initial_sound : sound (initial (TypeId := TypeId)) [].
Proof.
  split; [apply initial_owned|apply NoDup_nil_2|by intros ? ?%elem_of_nil|..].
  - by intros a j Hq.
  - by intros a j a' j' Hq.
Qed.

(** X10: A program that hands every object to a hub at most once: whatever the
    calls, no object is deleted twice, and no hub returns a deleted
    object. *)
Theorem unique_objects_deleted_once (cs : list (call TypeId)) :
  NoDup (given cs) →
  NoDup (deleted (heap (run cs initial))) ∧
  ∀ a T, (get a T (run cs initial)).1 ≠ null →
         (get a T (run cs initial)).1 ∉ deleted (heap (run cs initial)).
Proof.
  intros Hnd.
  destruct (run_sound cs initial [] initial_sound Hnd) as [P [Ho Hd Hdg Hlive Hun]].
  { by intros q _ ?%elem_of_nil. }
  split; [done|]. intros a T. rewrite get_value. apply Hlive.
Qed.


(** *** Indices and vectors over a program *)

Lemma grow_length_ge n i (v : list shared_ptr) : (length v ≤ length (grow n i v))%nat.
Proof.
  revert v. induction n as [|n IH]; intros v; simpl; [lia|].
  case_decide; [|lia]. etrans; [|apply IH]. rewrite length_app. simpl. lia.
Qed.

Lemma refContext_length_ge this T w a :
  (length (objects_of a w) ≤ length (objects_of a (refContext this T w).2))%nat.
Proof.
  destruct (decide (a = this)) as [->|Ha].
  - unfold refContext. destruct (static_index T w) as [k w1] eqn:Hk.
    assert (objects_of this w1 = objects_of this w) as Hsame.
    { unfold static_index in Hk. destruct (index w !! T); by injection Hk as <- <-. }
    cbn [snd]. rewrite objects_of_insert, decide_True by done. rewrite Hsame.
    case_decide; [apply grow_length_ge|done].
  - destruct (refContext_post this T w) as (k & _ & _ & _ & _ & _ & _ & Hoth & _).
    by rewrite Hoth.
Qed.

Lemma exec_index_stable c w T k :
  index w !! T = Some k → index (exec c w) !! T = Some k.
Proof.
  intros Hk. destruct (exec_statics c w) as (this & U & _ & -> & _).
  destruct (refContext_post this U w)
    as (k' & _ & _ & _ & _ & _ & _ & _ & [(_ & -> & _)|(HU & _ & -> & _)]); [done|].
  rewrite lookup_insert_ne; [done|]. congruence.
Qed.

Lemma exec_length_ge c w a :
  (length (objects_of a w) ≤ length (objects_of a (exec c w)))%nat.
Proof.
  destruct c as [this T p|this T|this T]; cbn [exec];
    pose proof (refContext_length_ge this T w a) as Hge;
    unfold set, get, reset, sp_from_raw;
    destruct (refContext this T w) as [i w1]; cbn [fst snd] in *; try done;
    rewrite objects_of_insert; case_decide; subst; by rewrite ?length_insert.
Qed.

(** X12: A type keeps the index it was given, and a hub never gives up a slot,
    whatever calls follow on whatever hubs. *)
Theorem type_index_is_stable (cs : list (call TypeId)) w T k :
  index w !! T = Some k →
  index (run cs w) !! T = Some k ∧
  ∀ a, (length (objects_of a w) ≤ length (objects_of a (run cs w)))%nat.
Proof.
  revert w. induction cs as [|c cs IH]; intros w Hk; [done|].
  change (run (c :: cs) w) with (run cs (exec c w)). destruct (IH (exec c w)) as [Hidx Hlen]; [by apply exec_index_stable|].
  split; [done|]. intros a. etrans; [apply exec_length_ge|apply Hlen].
Qed.

Lemma exec_counter c w :
  consistent w → room 1 w →
  N.of_nat (size (index w)) = msContextIndexer w →
  N.of_nat (size (index (exec c w))) = msContextIndexer (exec c w) ∧
  msContextIndexer (exec c w) ≤ msContextIndexer w + 1.
Proof.
  intros Hw Hroom Hsize. destruct (exec_statics c w) as (this & U & -> & -> & _).
  destruct (refContext_post this U w)
    as (k' & _ & _ & _ & _ & _ & _ & _ & [(_ & -> & ->)|(HU & -> & -> & ->)]); [lia|].
  rewrite uint32_succ by done. by rewrite map_size_insert_None; [lia|].
Qed.

Lemma run_counter cs w :
  consistent w → room (N.of_nat (length cs)) w →
  N.of_nat (size (index w)) = msContextIndexer w →
  N.of_nat (size (index (run cs w))) = msContextIndexer (run cs w) ∧
  msContextIndexer (run cs w) ≤ msContextIndexer w + N.of_nat (length cs).
Proof.
  revert w. induction cs as [|c cs IH]; intros w Hw Hroom Hsize; [cbn; lia|].
  change (run (c :: cs) w) with (run cs (exec c w)). cbn [length] in *.
  assert (room 1 w) as Hroom1 by (unfold room in *; lia).
  destruct (exec_counter c w Hw Hroom1 Hsize) as [Hsize' Hle].
  destruct (IH (exec c w)) as [Hs Hl]; [by apply exec_consistent| |done|].
  - apply exec_room. unfold room in *. lia.
  - split; [done|]. lia.
Qed.

(** X13: From program start, while fewer than [2 ^ 32] calls were made: the
    counter is the number of types that have an index, it is at most the
    number of calls, and no hub has more slots than that. *)
Theorem type_counter_counts_types (cs : list (call TypeId)) :
  N.of_nat (length cs) < uint32_modulus →
  N.of_nat (size (index (run cs initial))) = msContextIndexer (run cs initial) ∧
  msContextIndexer (run cs initial) ≤ N.of_nat (length cs) ∧
  ∀ a, N.of_nat (length (objects_of a (run cs initial))) ≤ msContextIndexer (run cs initial).
Proof.
  intros Hlen.
  assert (room (N.of_nat (length cs) + 0) (initial (TypeId := TypeId))) as Hroom
    by (unfold room; cbn; lia).
  destruct (run_consistent cs initial 0 initial_consistent Hroom) as [[_ _ _ Ho] _].
  rewrite N.add_0_r in Hroom.
  destruct (run_counter cs initial initial_consistent Hroom) as [Hs Hl]; [done|].
  split_and!; [done|cbn in Hl; lia|done].
Qed.

(** *** The counter past its last value *)

Lemma set_counter this T p w :
  msContextIndexer (set this T p w) = msContextIndexer (refContext this T w).2.
Proof. unfold set, sp_from_raw. by destruct (refContext this T w). Qed.

Lemma get_counter_index this T w :
  msContextIndexer (get this T w).2 = msContextIndexer (refContext this T w).2 ∧
  index (get this T w).2 = index (refContext this T w).2.
Proof. unfold get. by destruct (refContext this T w). Qed.

(** [get] for types without an index, one after the other: each takes the
    value of the counter, which wraps at most at the last of them; the
    other types and all slots stay as they are. *)
Lemma gets_fresh a (Ts : list TypeId) w :
  NoDup Ts → (∀ V, V ∈ Ts → index w !! V = None) →
  msContextIndexer w < uint32_modulus →
  msContextIndexer w + N.of_nat (length Ts) ≤ uint32_modulus →
  msContextIndexer (run (CGet a <$> Ts) w)
    = (msContextIndexer w + N.of_nat (length Ts)) mod uint32_modulus ∧
  (∀ V, V ∉ Ts → index (run (CGet a <$> Ts) w) !! V = index w !! V) ∧
  (∀ b j, at_ (objects_of b (run (CGet a <$> Ts) w)) j = at_ (objects_of b w) j).
Proof.
  revert w. induction Ts as [|V Ts IH]; intros w Hnd Hnew Hlt Hle.
  { cbn [length fmap list_fmap run foldl]. rewrite N.add_0_r, N.mod_small by done. done. }
  apply NoDup_cons in Hnd as [HV Hnd].
  change (run (CGet a <$> V :: Ts) w) with (run (CGet a <$> Ts) (get a V w).2).
  destruct (get_counter_index a V w) as [Hctr Hidx].
  destruct (refContext_post a V w)
    as (k & _ & _ & _ & _ & _ & _ & _ & [(Hk & _)|(_ & -> & Hidx' & Hctr')]).
  { rewrite Hnew in Hk; [done|]. apply elem_of_cons. by left. }
  rewrite Hidx' in Hidx. rewrite Hctr' in Hctr.
  assert (uint32_modulus ≠ 0) as HM by done.
  pose proof (N.mod_upper_bound (msContextIndexer w + 1) uint32_modulus HM) as Hup.
  pose proof (N.Div0.mod_le (msContextIndexer w + 1) uint32_modulus) as Hdown.
  cbn [length] in Hle.
  destruct (IH (get a V w).2) as (Hc & Hi & Hs); [done| |by rewrite Hctr|rewrite Hctr; lia|].
  { intros V' HV'. rewrite Hidx, lookup_insert_ne by (intros ->; done).
    apply Hnew, elem_of_cons. by right. }
  split_and!.
  - rewrite Hc, Hctr, N.Div0.add_mod_idemp_l. f_equal. cbn [length]. lia.
  - intros V' HV'. apply not_elem_of_cons in HV' as [Hne HV'].
    rewrite Hi, Hidx by done. by rewrite lookup_insert_ne.
  - intros b j. rewrite Hs. apply get_slot.
Qed.

(** X15: The counter is a [uint32], so one slot per type ends with the
    [2 ^ 32]th type.  From program start, [set<T>(p)] gives [T] index 0;
    [get] for [2 ^ 32 - 1] further types, on any hub, uses up the other
    indices and brings the counter back to 0; and [get<U>()] for one more
    type [U], for which [set] was never called, then takes index 0 as
    well and returns [p], the object of [T]. *)
Theorem wrapped_counter_shares_slot this a (T U : TypeId) (Ts : list TypeId) (p : ptr) :
  NoDup (T :: Ts ++ [U]) →
  N.of_nat (length Ts) = uint32_modulus - 1 →
  forallb (λ c, negb (sets this U c)) (CSet this T p :: (CGet a <$> Ts)) = true ∧
  (get this U (run (CSet this T p :: (CGet a <$> Ts)) initial)).1 = p.
Proof.
  intros Hnd Hlen. apply NoDup_cons in Hnd as [HT Hnd].
  apply NoDup_app in Hnd as (Hnd & HU & _).
  assert (U ≠ T) as HUT.
  { intros ->. apply HT, elem_of_app. right. by apply list_elem_of_singleton. }
  assert (U ∉ Ts) as HUTs.
  { intros HUin. apply (HU U HUin). by apply list_elem_of_singleton. }
  split.
  { cbn [forallb sets]. rewrite (bool_decide_eq_false_2 (T = U)) by done.
    rewrite andb_false_r. cbn [negb andb].
    apply forallb_forall. intros c [V [-> _]]%list_elem_of_In%list_elem_of_fmap. done. }
  change (run (CSet this T p :: (CGet a <$> Ts)) initial)
    with (run (CGet a <$> Ts) (set this T p initial)).
  assert (index (initial (TypeId := TypeId)) !! T = None) as HT0 by apply lookup_empty.
  destruct (refContext_post this T initial)
    as (k & _ & _ & _ & _ & _ & _ & _ & [(Hk & _)|(_ & -> & Hidx & Hctr)]);
    [by rewrite HT0 in Hk|].
  cbn [initial msContextIndexer index] in Hidx, Hctr.
  assert (msContextIndexer (set this T p initial) = 1) as Hctr1.
  { rewrite set_counter, Hctr. done. }
  assert (index (set this T p initial) = <[T := 0]> ∅) as Hidx1.
  { by rewrite set_index, Hidx. }
  assert (at_ (objects_of this (set this T p initial)) 0
          = SharedPtr_ p (Some (next_block (heap (initial (TypeId := TypeId))))))
    as Hslot.
  { rewrite set_slot, decide_True; [done|]. split; [done|].
    rewrite refContext_fst, HT0. done. }
  destruct (gets_fresh a Ts (set this T p initial)) as (Hc & Hi & Hs).
  - done.
  - intros V HV. rewrite Hidx1, lookup_insert_ne; [apply lookup_empty|].
    intros ->. apply HT, elem_of_app. by left.
  - rewrite Hctr1. done.
  - rewrite Hctr1, Hlen. unfold uint32_modulus. lia.
  - rewrite get_value, refContext_fst, Hi by done.
    rewrite Hidx1, lookup_insert_ne, lookup_empty by done.
    rewrite Hc, Hctr1, Hlen.
    replace (1 + (uint32_modulus - 1)) with uint32_modulus
      by (unfold uint32_modulus; lia).
    rewrite N.Div0.mod_same. change (N.to_nat 0) with 0%nat.
    by rewrite Hs, Hslot.
Qed.

End Hub.

(** The theorems at concrete programs: types [1], [2], [5] and hubs [10]
    and [11], from program start. *)
Lemma get_keeps_store_witness :
  owned (run [CSet 10 1%nat 9] (initial (TypeId := nat))) ∧
  heap (get 10 1%nat (run [CSet 10 1%nat 9] (initial (TypeId := nat)))).2
    = heap (run [CSet 10 1%nat 9] (initial (TypeId := nat))).
Proof.
  assert (owned (run [CSet 10 1%nat 9] (initial (TypeId := nat)))) as Hw
    by apply run_owned, initial_owned.
  split; [exact Hw|]. apply (get_keeps_store 10 1%nat _ Hw).
Defined.

Lemma set_deletes_previous_witness :
  owned (run [CSet 10 1%nat 9] (initial (TypeId := nat))) ∧
  deleted (heap (set 10 1%nat 8 (run [CSet 10 1%nat 9] (initial (TypeId := nat))))) = [9].
Proof.
  assert (owned (run [CSet 10 1%nat 9] (initial (TypeId := nat)))) as Hw
    by apply run_owned, initial_owned.
  split; [exact Hw|]. by rewrite (set_deletes_previous 10 1%nat 8 _ Hw).
Defined.

Lemma reset_deletes_once_witness :
  owned (run [CSet 10 1%nat 9] (initial (TypeId := nat))) ∧
  deleted (heap (reset 10 1%nat (run [CSet 10 1%nat 9] (initial (TypeId := nat))))) = [9].
Proof.
  assert (owned (run [CSet 10 1%nat 9] (initial (TypeId := nat)))) as Hw
    by apply run_owned, initial_owned.
  split; [exact Hw|]. by rewrite (proj1 (reset_deletes_once 10 1%nat _ Hw)).
Defined.

Lemma set_same_object_twice_witness :
  owned (initial (TypeId := nat)) ∧ 9 ≠ null ∧
  9 ∈ deleted (heap (set 10 1%nat 9 (set 10 1%nat 9 (initial (TypeId := nat))))).
Proof.
  split_and!; [apply initial_owned|done|].
  by apply (set_same_object_twice 10 1%nat 9 initial initial_owned).
Defined.

Lemma unique_objects_deleted_once_witness :
  NoDup (given [CSet 10 1%nat 9; CSet 10 1%nat 8; CSet 11 1%nat 7; CReset 11 1%nat]) ∧
  NoDup (deleted (heap (run [CSet 10 1%nat 9; CSet 10 1%nat 8; CSet 11 1%nat 7;
                              CReset 11 1%nat] (initial (TypeId := nat))))).
Proof.
  assert (NoDup (given [CSet 10 1%nat 9; CSet 10 1%nat 8; CSet 11 1%nat 7;
                        CReset 11 1%nat])) as Hnd
    by (apply (bool_decide_unpack _); vm_compute; exact I).
  split; [exact Hnd|]. apply (unique_objects_deleted_once _ Hnd).
Defined.

Lemma type_index_is_stable_witness :
  index (run [CGet 10 5%nat] (initial (TypeId := nat))) !! 5%nat = Some 0 ∧
  index (run [CSet 11 1%nat 9; CGet 10 2%nat] (run [CGet 10 5%nat] initial)) !! 5%nat
    = Some 0.
Proof.
  assert (index (run [CGet 10 5%nat] (initial (TypeId := nat))) !! 5%nat = Some 0) as Hk
    by reflexivity.
  split; [exact Hk|].
  apply (type_index_is_stable [CSet 11 1%nat 9; CGet 10 2%nat] _ 5%nat 0 Hk).
Defined.

Lemma type_counter_counts_types_witness :
  N.of_nat (length [CSet 10 1%nat 9; CGet 10 2%nat; CGet 11 1%nat]) < uint32_modulus ∧
  msContextIndexer (run [CSet 10 1%nat 9; CGet 10 2%nat; CGet 11 1%nat]
                        (initial (TypeId := nat))) ≤ 3.
Proof.
  assert (N.of_nat (length [CSet 10 1%nat 9; CGet 10 2%nat; CGet 11 1%nat])
          < uint32_modulus) as Hlen by reflexivity.
  split; [exact Hlen|].
  apply (type_counter_counts_types
           [CSet 10 1%nat 9; CGet 10 2%nat; CGet 11 1%nat] Hlen).
Defined.

(** Types [0], [1], ..., [2 ^ 32] with [0] set, the types up to
    [2 ^ 32 - 1] read on hub [11], and [2 ^ 32] read on hub [10]. *)
Lemma wrapped_types_distinct (n : nat) : NoDup (0%nat :: seq 1 n ++ [S n]).
Proof.
  change (NoDup (seq 0 (S n) ++ [(0 + S n)%nat])). rewrite <-seq_S. apply NoDup_seq.
Qed.

Lemma wrapped_types_count :
  N.of_nat (length (seq 1 (N.to_nat (uint32_modulus - 1)))) = uint32_modulus - 1.
Proof. rewrite length_seq. apply N2Nat.id. Qed.

Lemma wrapped_counter_shares_slot_witness :
  NoDup (0%nat :: seq 1 (N.to_nat (uint32_modulus - 1))
           ++ [S (N.to_nat (uint32_modulus - 1))]) ∧
  N.of_nat (length (seq 1 (N.to_nat (uint32_modulus - 1)))) = uint32_modulus - 1 ∧
  (get 10 (S (N.to_nat (uint32_modulus - 1)))
     (run (CSet 10 0%nat 7 :: (CGet 11 <$> seq 1 (N.to_nat (uint32_modulus - 1))))
        initial)).1 = 7.
Proof.
  split_and!; [apply wrapped_types_distinct|apply wrapped_types_count|].
  apply (wrapped_counter_shares_slot 10 11 0%nat (S (N.to_nat (uint32_modulus - 1)))
           (seq 1 (N.to_nat (uint32_modulus - 1))) 7
           (wrapped_types_distinct _) wrapped_types_count).
Defined.

Lemma get_other_hub_witness :
  consistent (initial (TypeId := nat)) ∧ room 1 (initial (TypeId := nat)) ∧ 11 ≠ 10 ∧
  (get 11 1%nat (set 10 1%nat 9 initial)).1 = (get 11 1%nat initial).1.
Proof.
  assert (room (TypeId := nat) 1 initial) as Hroom by reflexivity.
  split_and!; [apply initial_consistent|exact Hroom|done|].
  apply (get_other_hub 10 11 1%nat 1%nat 9 initial initial_consistent Hroom). done.
Defined.

End ContextHubOwnershipFacts.

Module TcpConnectorFactoryFacts.
Import SharedPtr SharedPtrFacts TcpConnector TcpConnectorFacts TcpConnectorFactory.

(** [create] leaves the connectors and control blocks that exist alone. *)
Lemma create_frame e h :
  heap_ok h →
  (∀ a c, objects h !! a = Some c → objects (create e h).2 !! a = Some c) ∧
  (∀ b c, blocks (store h) !! b = Some c → blocks (store (create e h).2) !! b = Some c).
Proof.
  intros [Hn Ho Hb]. rewrite create_result. cbn [snd objects store blocks]. split.
  - intros a c Ha. rewrite lookup_insert_ne; [done|]. apply Ho in Ha. lia.
  - intros b c Hc. rewrite lookup_insert_ne; [done|]. apply Hb in Hc. lia.
Qed.

Lemma create_all_cons e es h :
  create_all (e :: es) h =
  ((create e h).1 :: (create_all es (create e h).2).1,
   (create_all es (create e h).2).2).
Proof.
  cbn [create_all]. destruct (create e h) as [p h1]. cbn [fst snd].
  by destruct (create_all es h1).
Qed.

Lemma create_all_frame es h :
  heap_ok h →
  heap_ok (create_all es h).2 ∧
  (∀ a c, objects h !! a = Some c → objects (create_all es h).2 !! a = Some c) ∧
  (∀ b c, blocks (store h) !! b = Some c →
          blocks (store (create_all es h).2) !! b = Some c).
Proof.
  revert h. induction es as [|e es IH]; intros h Hh; [done|].
  rewrite create_all_cons. cbn [snd].
  destruct (IH (create e h).2 (create_heap_ok e h Hh)) as (Hok & Ho & Hb).
  destruct (create_frame e h Hh) as [Ho1 Hb1]. split_and!; auto.
Qed.

Lemma create_self_referring e h :
  heap_ok h → objects h !! get (create e h).1 = None ∧
  ∃ b c, pn (create e h).1 = Some b ∧
         blocks (store (create e h).2) !! b = Some (SpCounted (get (create e h).1) 1 1) ∧
         objects (create e h).2 !! get (create e h).1 = Some c ∧
         mWeakThis c = WeakPtr_ (px (create e h).1) (pn (create e h).1).
Proof.
  intros Hh. rewrite create_result. cbn [fst snd get px pn objects store blocks].
  split; [by apply heap_ok_fresh_object|].
  eexists _, _. split_and!; [done|apply lookup_insert_eq|apply lookup_insert_eq|done].
Qed.

(** X16: Whatever the number of connectors made in a row from a well-formed
    heap: the handles designate different connectors, none of which
    existed before, and at the end every one of them is still the only
    owner of a connector whose [mWeakThis] refers to that connector. *)
Theorem create_all_distinct_self_referring (es : list ptr) (h : Heap) :
  heap_ok h →
  length (create_all es h).1 = length es ∧
  NoDup (get <$> (create_all es h).1) ∧
  ∀ p, p ∈ (create_all es h).1 →
       objects h !! get p = None ∧ self_referring p (create_all es h).2.
Proof.
  revert h. induction es as [|e es IH]; intros h Hh.
  - split_and!; [done|apply NoDup_nil_2|by intros p ?%elem_of_nil].
  - rewrite create_all_cons. cbn [fst snd].
    pose proof (create_heap_ok e h Hh) as Hh1.
    destruct (IH _ Hh1) as (Hlen & Hnd & Hall).
    destruct (create_self_referring e h Hh) as (Hnew & b & c & Hpn & Hb & Hc & Hw).
    destruct (create_all_frame es _ Hh1) as (_ & Hfo & Hfb).
    destruct (create_frame e h Hh) as [Hfo1 _].
    split_and!.
    + cbn [length]. by rewrite Hlen.
    + rewrite fmap_cons. apply NoDup_cons. split; [|done].
      intros (q & Heq & Hq)%list_elem_of_fmap.
      destruct (Hall q Hq) as [Hnone _]. rewrite <-Heq in Hnone. congruence.
    + intros p [->|Hp]%elem_of_cons.
      * split; [done|]. split.
        -- unfold sp_use_count. rewrite Hpn. by rewrite (Hfb _ _ Hb).
        -- exists c. split; [by apply Hfo|done].
      * destruct (Hall p Hp) as [Hnone Hself]. split; [|done].
        destruct (objects h !! get p) as [c'|] eqn:Hc'; [|done].
        apply Hfo1 in Hc'. congruence.
Qed.

Lemma create_all_distinct_self_referring_witness :
  heap_ok empty_heap ∧
  NoDup (get <$> (create_all [7; 7; 8] empty_heap).1).
Proof.
  split; [apply empty_heap_ok|].
  apply (create_all_distinct_self_referring [7; 7; 8] empty_heap empty_heap_ok).
Defined.

End TcpConnectorFactoryFacts.

Module UnicodeUtilBounds.
Import UnicodeUtil UnicodeUtilFacts.

Section Copy.
Variable dereference : list byte → option N.
Variable increment : list byte → option (list byte).
Variable wchar_of : N → Z.

Hypothesis increment_advances :
  ∀ first next, increment first = Some next → (length next < length first)%nat.

Lemma code_points_length n first o vs :
  code_points dereference increment n first = Some (o, vs) →
  (length vs ≤ length first)%nat.
Proof.
  revert first o vs. induction n as [|n IH]; intros first o vs; [done|].
  destruct first as [|c rest]; cbn [code_points]; [by intros [= <- <-]|].
  destruct (dereference (c :: rest)) as [v|]; [|intros [= <- <-]; cbn; lia].
  destruct (increment (c :: rest)) as [next|] eqn:Hnext; [|intros [= <- <-]; cbn; lia].
  apply increment_advances in Hnext.
  destruct (code_points dereference increment n next) as [[o' vs']|] eqn:Hrec; [|done].
  intros [= <- <-]. apply IH in Hrec. cbn in *. lia.
Qed.

(** X17: [utf8_to_ucs4] appends at most one wide character per byte of the
    input, whether it returns or the iterator throws, and nothing for the
    empty input. *)
Theorem utf8_to_ucs4_output_bound (input : list byte) (output : list Z) o output' :
  utf8_to_ucs4 dereference increment wchar_of input output = Some (o, output') →
  (length output ≤ length output' ≤ length output + length input)%nat.
Proof.
  unfold utf8_to_ucs4. rewrite copy_code_points.
  destruct (code_points dereference increment (S (length input)) input)
    as [[o' vs]|] eqn:Hd; [|done].
  intros [= <- <-]. apply code_points_length in Hd.
  rewrite length_app, length_map. lia.
Qed.

End Copy.

Lemma utf8_to_ucs4_output_bound_witness :
  (∀ first next, u8_increment first = Some next → (length next < length first)%nat) ∧
  utf8_to_ucs4 u8_dereference u8_increment wchar32_of [x61; xc3; xa9] [42%Z]
    = Some (Returned, [42; 97; 233]%Z) ∧
  (length [42%Z] ≤ length [42; 97; 233]%Z ≤ length [42%Z] + length [x61; xc3; xa9])%nat.
Proof.
  assert (utf8_to_ucs4 u8_dereference u8_increment wchar32_of [x61; xc3; xa9] [42%Z]
          = Some (Returned, [42; 97; 233]%Z)) as Hrun by reflexivity.
  split; [exact u8_increment_advances|]. split; [exact Hrun|].
  apply (utf8_to_ucs4_output_bound u8_dereference u8_increment wchar32_of
           u8_increment_advances _ _ _ _ Hrun).
Defined.

End UnicodeUtilBounds.
